(** * Relais: frame stores, session manager and plugin registry

    A shallow embedding of the Go packages [pkg/storage] (the [Storage]
    interface with its [MemoryStorage] and [RedisStorage] backends),
    [pkg/server] ([SessionManager]) and [pkg/plugins] ([Registry] and
    [PluginManager]), with the properties of the design document stated
    over the embedding.

    Conventions.  A Go [map] is a [gmap], a [map[string]struct{}] a
    [gset]; Go strings are byte strings, as Rocq's [string]; [int64]
    values that are only stored and compared are [Z]; a Go [error]
    return is an [option] of an error type ([None] being [nil]) and a
    [(value, error)] return is a [result].  Methods are functions from
    the receiver's state to the new state and the returned value, and
    calls are taken one at a time; a reading of [time.Now] is an
    argument of the method that takes it. *)

From Stdlib Require Import ZArith.
From Stdlib.Strings Require Import String Ascii Byte.
From stdpp Require Import base option list sorting strings pretty gmap.

Local Open Scope Z_scope.
Local Open Scope string_scope.

(** ** Orders used by Go's [sort] package *)

Module GoSort.

(** [sort.Strings] orders by bytewise lexicographic comparison. *)
Definition string_le (a b : string) : Prop := String.leb a b = true.
Definition string_lt (a b : string) : Prop := String.ltb a b = true.

#[global] Instance string_le_dec : RelDecision string_le.
Proof. intros a b. unfold string_le. apply _. Defined.

#[global] Instance string_lt_dec : RelDecision string_lt.
Proof. intros a b. unfold string_lt. apply _. Defined.

(** [sort.Strings(xs)]. *)
Definition Strings (xs : list string) : list string :=
  merge_sort string_le xs.

End GoSort.

(** ** [storage.Frame] and the errors of the [Storage] interface *)

#[global] Instance byte_eq_dec : EqDecision byte := Byte.byte_eq_dec.

(** [time.Time]: the wall clock reading in nanoseconds since the Unix
    epoch and, for values that come from [time.Now], the monotonic clock
    reading. *)
Record Time := mkTime {
  unix_nano : Z;
  mono : option Z
}.

#[global] Instance Time_eq_dec : EqDecision Time.
Proof. solve_decision. Defined.

Record Frame := mkFrame {
  SessionID : string;
  Index : Z;
  Data : list byte;
  Timestamp : Time;
  MediaType : string;
  Codec : string;
  KeyFrame : bool
}.

#[global] Instance Frame_eq_dec : EqDecision Frame.
Proof. solve_decision. Defined.

(** The errors the two backends build with [fmt.Errorf], one constructor
    per message format. *)
Inductive StorageError :=
  | ErrSessionNotFound (sessionID : string)
      (* "session not found: %s" *)
  | ErrFrameNotFound (sessionID : string) (frameIndex : Z)
      (* "frame not found: session %s, index %d" *)
  | ErrMarshal          (* "failed to marshal frame: %v" *)
  | ErrUnmarshal        (* "failed to unmarshal frame: %v" *)
  | ErrCheckSession     (* "failed to check session: %v" *)
  | ErrGetFrames        (* "failed to get frames: %v" *)
  | ErrStoreFrame       (* "failed to store frame: %v" *)
  | ErrListSessions     (* "failed to list sessions: %v" *)
  | ErrDeleteSession.   (* "failed to delete session: %v" *)

#[global] Instance StorageError_eq_dec : EqDecision StorageError.
Proof. solve_decision. Defined.

(** A Go [(value, error)] return. *)
Inductive result (E A : Type) :=
  | Ok (a : A)
  | Err (e : E).
Arguments Ok {E A} a.
Arguments Err {E A} e.

Abbreviation sresult := (result StorageError).

(** The [sort.Slice] call of both [ListFrames]: ascending [Index].
    [sort.Slice] promises no order among frames of equal index; what is
    stated below about such lists is stated up to permutation. *)
Definition index_le (f g : Frame) : Prop := Index f <= Index g.

#[global] Instance index_le_dec : RelDecision index_le.
Proof. intros f g. unfold index_le. apply _. Defined.

Definition sort_frames (fs : list Frame) : list Frame :=
  merge_sort index_le fs.

(** Strictly ascending [Index]. *)
Definition index_lt (f g : Frame) : Prop := Index f < Index g.

#[global] Instance index_lt_dec : RelDecision index_lt.
Proof. intros f g. unfold index_lt. apply _. Defined.

(** ** [MemoryStorage] (pkg/storage/mem.go) *)

Module Mem.

Record MemoryStorage := mkMem {
  frames : gmap string (gmap Z Frame);
  sessions : gset string
}.

Definition NewMemoryStorage : MemoryStorage :=
  {| frames := ∅; sessions := ∅ |}.

Definition PutFrame (frame : Frame) (s : MemoryStorage)
    : MemoryStorage * option StorageError :=
  let s1 :=
    match frames s !! SessionID frame with
    | Some _ => s
    | None =>
        {| frames := <[SessionID frame := ∅]> (frames s);
           sessions := {[SessionID frame]} ∪ sessions s |}
    end in
  ({| frames := alter (insert (Index frame) frame) (SessionID frame) (frames s1);
      sessions := sessions s1 |},
   None).

Definition GetFrame (sessionID : string) (frameIndex : Z)
    (s : MemoryStorage) : sresult Frame :=
  match frames s !! sessionID with
  | None => Err (ErrSessionNotFound sessionID)
  | Some sessionFrames =>
      match sessionFrames !! frameIndex with
      | None => Err (ErrFrameNotFound sessionID frameIndex)
      | Some frame => Ok frame
      end
  end.

Definition ListFrames (sessionID : string) (s : MemoryStorage)
    : sresult (list Frame) :=
  match frames s !! sessionID with
  | None => Err (ErrSessionNotFound sessionID)
  | Some sessionFrames =>
      Ok (sort_frames (snd <$> map_to_list sessionFrames))
  end.

Definition ListSessions (s : MemoryStorage) : sresult (list string) :=
  Ok (GoSort.Strings (elements (sessions s))).

Definition DeleteSession (sessionID : string) (s : MemoryStorage)
    : MemoryStorage * option StorageError :=
  match frames s !! sessionID with
  | None => (s, Some (ErrSessionNotFound sessionID))
  | Some _ =>
      ({| frames := delete sessionID (frames s);
          sessions := sessions s ∖ {[sessionID]} |},
       None)
  end.

Definition Close (s : MemoryStorage) : MemoryStorage * option StorageError :=
  (s, None).

(** The sessions set and the frames map have the same keys. *)
Definition inv (s : MemoryStorage) : Prop :=
  ∀ sessionID, sessionID ∈ sessions s ↔ is_Some (frames s !! sessionID).

End Mem.

(** ** The Redis server state behind [redis.Client] *)

(** [json.Marshal] and [json.Unmarshal] on [Frame].  The payload type is
    left open; the only property assumed of the pair is that a frame
    that marshals is read back as itself (frames that JSON does not
    carry unchanged are outside this assumption). *)
Class FrameCodec (payload : Type) := {
  marshal : Frame → option payload;
  unmarshal : payload → option Frame;
  unmarshal_marshal f p : marshal f = Some p → unmarshal p = Some f
}.

Module RedisServer.

(** A key holds a list or a set; a command on a key of the other type
    fails with WRONGTYPE.  Redis removes a key whose set becomes
    empty. *)
Inductive value (payload : Type) :=
  | VList (l : list payload)
  | VSet (m : gset string).
Arguments VList {payload} l.
Arguments VSet {payload} m.

Inductive CmdError := WRONGTYPE.

Inductive reply (A : Type) :=
  | Reply (a : A)
  | Fail (e : CmdError).
Arguments Reply {A} a.
Arguments Fail {A} e.

Section commands.
Context {payload : Type}.
Abbreviation keyspace := (gmap string (value payload)).

Definition RPush (key : string) (v : payload) (db : keyspace)
    : keyspace * option CmdError :=
  match db !! key with
  | None => (<[key := VList [v]]> db, None)
  | Some (VList l) => (<[key := VList (l ++ [v])]> db, None)
  | Some (VSet _) => (db, Some WRONGTYPE)
  end.

Definition SAdd (key member : string) (db : keyspace)
    : keyspace * option CmdError :=
  match db !! key with
  | None => (<[key := VSet {[member]}]> db, None)
  | Some (VSet m) => (<[key := VSet ({[member]} ∪ m)]> db, None)
  | Some (VList _) => (db, Some WRONGTYPE)
  end.

Definition SRem (key member : string) (db : keyspace)
    : keyspace * option CmdError :=
  match db !! key with
  | None => (db, None)
  | Some (VSet m) =>
      let m' := m ∖ {[member]} in
      (if decide (m' = ∅) then delete key db else <[key := VSet m']> db,
       None)
  | Some (VList _) => (db, Some WRONGTYPE)
  end.

Definition Del (key : string) (db : keyspace)
    : keyspace * option CmdError :=
  (delete key db, None).

Definition SIsMember (key member : string) (db : keyspace) : reply bool :=
  match db !! key with
  | None => Reply false
  | Some (VSet m) => Reply (bool_decide (member ∈ m))
  | Some (VList _) => Fail WRONGTYPE
  end.

Definition SMembers (key : string) (db : keyspace) : reply (list string) :=
  match db !! key with
  | None => Reply []
  | Some (VSet m) => Reply (elements m)
  | Some (VList _) => Fail WRONGTYPE
  end.

(** [LRANGE key start stop]: both ends inclusive, negative offsets
    count from the end of the list. *)
Definition LRange (key : string) (start stop : Z) (db : keyspace)
    : reply (list payload) :=
  match db !! key with
  | None => Reply []
  | Some (VList l) =>
      let len := Z.of_nat (length l) in
      let start := if decide (start < 0) then Z.max (len + start) 0 else start in
      let stop := if decide (stop < 0) then len + stop else stop in
      let stop := if decide (len <= stop) then len - 1 else stop in
      if decide (stop < start) then Reply []
      else Reply (take (Z.to_nat (stop - start + 1)) (drop (Z.to_nat start) l))
  | Some (VSet _) => Fail WRONGTYPE
  end.

(** [Pipeline.Exec]: the queued commands run in order, all of them,
    and the error of the first failed one is returned. *)
Fixpoint Exec (cmds : list (keyspace → keyspace * option CmdError))
    (db : keyspace) : keyspace * option CmdError :=
  match cmds with
  | [] => (db, None)
  | c :: cmds =>
      let '(db1, e1) := c db in
      let '(db2, e2) := Exec cmds db1 in
      (db2, match e1 with Some e => Some e | None => e2 end)
  end.

End commands.

End RedisServer.

(** ** [RedisStorage] (the Redis backend of pkg/storage) *)

Module Redis.
Import RedisServer.

Section storage.
Context {payload : Type} `{!FrameCodec payload}.

Record RedisStorage := mkRedis {
  client : gmap string (value payload);
  prefix : string
}.

(** A client connected to an empty database. *)
Definition NewRedisStorage (prefix : string) : RedisStorage :=
  {| client := ∅; prefix := prefix |}.

Definition frameKey (s : RedisStorage) (sessionID : string) : string :=
  prefix s ++ "frames:" ++ sessionID.

Definition sessionKey (s : RedisStorage) : string :=
  prefix s ++ "active_sessions".

Definition PutFrame (frame : Frame) (s : RedisStorage)
    : RedisStorage * option StorageError :=
  match marshal frame with
  | None => (s, Some ErrMarshal)
  | Some frameJSON =>
      let '(db, err) :=
        Exec [RPush (frameKey s (SessionID frame)) frameJSON;
              SAdd (sessionKey s) (SessionID frame)] (client s) in
      ({| client := db; prefix := prefix s |},
       match err with Some _ => Some ErrStoreFrame | None => None end)
  end.

(** The loop of [GetFrame] over the session's list. *)
Fixpoint scan_frames (sessionID : string) (frameIndex : Z)
    (frameList : list payload) : sresult Frame :=
  match frameList with
  | [] => Err (ErrFrameNotFound sessionID frameIndex)
  | frameJSON :: frameList =>
      match unmarshal frameJSON with
      | None => Err ErrUnmarshal
      | Some frame =>
          if decide (Index frame = frameIndex) then Ok frame
          else scan_frames sessionID frameIndex frameList
      end
  end.

Definition GetFrame (sessionID : string) (frameIndex : Z)
    (s : RedisStorage) : sresult Frame :=
  match SIsMember (sessionKey s) sessionID (client s) with
  | Fail _ => Err ErrCheckSession
  | Reply false => Err (ErrSessionNotFound sessionID)
  | Reply true =>
      match LRange (frameKey s sessionID) 0 (-1) (client s) with
      | Fail _ => Err ErrGetFrames
      | Reply frameList => scan_frames sessionID frameIndex frameList
      end
  end.

(** The deserialization loop of [ListFrames]. *)
Fixpoint decode_frames (frameList : list payload) : sresult (list Frame) :=
  match frameList with
  | [] => Ok []
  | frameJSON :: frameList =>
      match unmarshal frameJSON with
      | None => Err ErrUnmarshal
      | Some frame =>
          match decode_frames frameList with
          | Err e => Err e
          | Ok frames => Ok (frame :: frames)
          end
      end
  end.

Definition ListFrames (sessionID : string) (s : RedisStorage)
    : sresult (list Frame) :=
  match SIsMember (sessionKey s) sessionID (client s) with
  | Fail _ => Err ErrCheckSession
  | Reply false => Err (ErrSessionNotFound sessionID)
  | Reply true =>
      match LRange (frameKey s sessionID) 0 (-1) (client s) with
      | Fail _ => Err ErrGetFrames
      | Reply frameList =>
          match decode_frames frameList with
          | Err e => Err e
          | Ok frames => Ok (sort_frames frames)
          end
      end
  end.

Definition ListSessions (s : RedisStorage) : sresult (list string) :=
  match SMembers (sessionKey s) (client s) with
  | Fail _ => Err ErrListSessions
  | Reply sessions => Ok (GoSort.Strings sessions)
  end.

Definition DeleteSession (sessionID : string) (s : RedisStorage)
    : RedisStorage * option StorageError :=
  match SIsMember (sessionKey s) sessionID (client s) with
  | Fail _ => (s, Some ErrCheckSession)
  | Reply false => (s, Some (ErrSessionNotFound sessionID))
  | Reply true =>
      let '(db, err) :=
        Exec [Del (frameKey s sessionID);
              SRem (sessionKey s) sessionID] (client s) in
      ({| client := db; prefix := prefix s |},
       match err with Some _ => Some ErrDeleteSession | None => None end)
  end.

(** What the database holds for the store: the members of the
    active-sessions set and the list of a session. *)
Definition members (s : RedisStorage) : gset string :=
  match client s !! sessionKey s with
  | Some (VSet m) => m
  | _ => ∅
  end.

Definition frame_list (s : RedisStorage) (sessionID : string)
    : list payload :=
  match client s !! frameKey s sessionID with
  | Some (VList l) => l
  | _ => []
  end.

(** The keys of the store hold values of the type the store puts
    there. *)
Definition well_typed (s : RedisStorage) : Prop :=
  (∀ l, client s !! sessionKey s ≠ Some (VList l)) ∧
  (∀ sessionID m, client s !! frameKey s sessionID ≠ Some (VSet m)).

End storage.

Arguments RedisStorage payload : clear implicits.

End Redis.

(** JSON modelled as the identity: the payload of a frame is the frame. *)
#[global, refine] Instance id_codec : FrameCodec Frame :=
  {| marshal f := Some f; unmarshal p := Some p |}.
Proof. intros f p [= ->]. reflexivity. Defined.

(** ** Operation sequences on a frame store *)

Inductive Op :=
  | OpPutFrame (frame : Frame)
  | OpGetFrame (sessionID : string) (frameIndex : Z)
  | OpListFrames (sessionID : string)
  | OpListSessions
  | OpDeleteSession (sessionID : string).

(** What the caller of one operation sees. *)
Inductive Obs :=
  | ObsError (e : option StorageError)
  | ObsFrame (r : sresult Frame)
  | ObsFrames (r : sresult (list Frame))
  | ObsSessions (r : sresult (list string)).

Section run.
Context {S : Type} (step : Op → S → S * Obs).

Fixpoint run (ops : list Op) (s : S) : S * list Obs :=
  match ops with
  | [] => (s, [])
  | op :: ops =>
      let '(s1, o) := step op s in
      let '(s2, os) := run ops s1 in
      (s2, o :: os)
  end.
End run.

Definition mem_step (op : Op) (s : Mem.MemoryStorage) : Mem.MemoryStorage * Obs :=
  match op with
  | OpPutFrame frame => let '(s', e) := Mem.PutFrame frame s in (s', ObsError e)
  | OpGetFrame sid i => (s, ObsFrame (Mem.GetFrame sid i s))
  | OpListFrames sid => (s, ObsFrames (Mem.ListFrames sid s))
  | OpListSessions => (s, ObsSessions (Mem.ListSessions s))
  | OpDeleteSession sid => let '(s', e) := Mem.DeleteSession sid s in (s', ObsError e)
  end.

Definition redis_step {payload} `{!FrameCodec payload} (op : Op)
    (s : Redis.RedisStorage payload) : Redis.RedisStorage payload * Obs :=
  match op with
  | OpPutFrame frame => let '(s', e) := Redis.PutFrame frame s in (s', ObsError e)
  | OpGetFrame sid i => (s, ObsFrame (Redis.GetFrame sid i s))
  | OpListFrames sid => (s, ObsFrames (Redis.ListFrames sid s))
  | OpListSessions => (s, ObsSessions (Redis.ListSessions s))
  | OpDeleteSession sid => let '(s', e) := Redis.DeleteSession sid s in (s', ObsError e)
  end.

(** ** [time] as the session manager uses it *)

Module GoTime.

(** [time.Duration] is an [int64] count of nanoseconds. *)
Definition minDuration : Z := - 2 ^ 63.
Definition maxDuration : Z := 2 ^ 63 - 1.
Definition Second : Z := 1000000000.
Definition Minute : Z := 60 * Second.

(** Two's-complement wrap-around of an [int64] result. *)
Definition wrap64 (z : Z) : Z := (z + 2 ^ 63) mod 2 ^ 64 - 2 ^ 63.

(** [subMono]: difference of two monotonic readings, saturating. *)
Definition subMono (t u : Z) : Z :=
  let d := wrap64 (t - u) in
  if decide (d < 0 ∧ t > u) then maxDuration
  else if decide (d > 0 ∧ t < u) then minDuration
  else d.

(** [t.Sub(u)]: on the monotonic readings when both values carry one,
    on the wall clock otherwise; out-of-range differences saturate. *)
Definition Sub (t u : Time) : Z :=
  match mono t, mono u with
  | Some mt, Some mu => subMono mt mu
  | _, _ =>
      let d := wrap64 (unix_nano t - unix_nano u) in
      if decide (unix_nano u + d = unix_nano t) then d
      else if decide (unix_nano t < unix_nano u) then minDuration
      else maxDuration
  end.

(** [appendInt]: decimal digits of [x], zero-padded to [width], after
    a minus sign when [x] is negative. *)
Definition appendInt (x : Z) (width : nat) : string :=
  let digits := pretty (Z.abs_N x) in
  (if decide (x < 0) then "-" else "") ++
  String.concat "" (replicate (width - String.length digits) "0") ++ digits.

(** Civil date of a day count since 1970-01-01 (proleptic Gregorian). *)
Definition civil_from_days (days : Z) : Z * Z * Z :=
  let z := days + 719468 in
  let era := z `div` 146097 in
  let doe := z - era * 146097 in
  let yoe := (doe - doe `div` 1460 + doe `div` 36524 - doe `div` 146096) `div` 365 in
  let doy := doe - (365 * yoe + yoe `div` 4 - yoe `div` 100) in
  let mp := (5 * doy + 2) `div` 153 in
  let d := doy - (153 * mp + 2) `div` 5 + 1 in
  let m := if decide (mp < 10) then mp + 3 else mp - 9 in
  let y := yoe + era * 400 + (if decide (m <= 2) then 1 else 0) in
  (y, m, d).

(** [t.Format("20060102150405")] in a zone [zone] seconds east of
    UTC: year, month, day, hour, minute, second. *)
Definition Format_20060102150405 (zone : Z) (t : Time) : string :=
  let sec := unix_nano t `div` Second + zone in
  let '(y, m, d) := civil_from_days (sec `div` 86400) in
  let rem := sec `mod` 86400 in
  appendInt y 4 ++ appendInt m 2 ++ appendInt d 2 ++
  appendInt (rem `div` 3600) 2 ++ appendInt ((rem `mod` 3600) `div` 60) 2 ++
  appendInt (rem `mod` 60) 2.

End GoTime.

(** ** [SessionManager] (pkg/server) *)

Module Session.

Section manager.
(** The values of [map[string]interface{}]. *)
Context {metadata : Type}.

Record SessionInfo := mkSessionInfo {
  ID : string;
  CreatedAt : Time;
  Type_ : string;
  Metadata : metadata
}.

Record SessionManager := mkManager {
  sessions : gmap string SessionInfo
}.

Definition NewSessionManager : SessionManager :=
  {| sessions := ∅ |}.

(** [generateSessionID], reading the clock as [now]; [zone] is the
    offset of the process's local time zone. *)
Definition generateSessionID (zone : Z) (now : Time) : string :=
  "session_" ++ GoTime.Format_20060102150405 zone now.

(** [CreateSession]; [now_id] is the clock reading taken inside
    [generateSessionID], [now] the one stored as [CreatedAt]. *)
Definition CreateSession (zone : Z) (now_id now : Time)
    (sessionType : string) (md : metadata) (sm : SessionManager)
    : SessionManager * SessionInfo :=
  let session :=
    {| ID := generateSessionID zone now_id;
       CreatedAt := now;
       Type_ := sessionType;
       Metadata := md |} in
  ({| sessions := <[ID session := session]> (sessions sm) |}, session).

Definition GetSession (sessionID : string) (sm : SessionManager)
    : option SessionInfo :=
  sessions sm !! sessionID.

Definition CleanupSession (sessionID : string) (sm : SessionManager)
    : SessionManager :=
  match sessions sm !! sessionID with
  | None => sm
  | Some _ => {| sessions := delete sessionID (sessions sm) |}
  end.

(** One iteration of the loop of [cleanupExpiredSessions]. *)
Definition cleanup_entry (now : Time) (maxAge : Z)
    (acc : gmap string SessionInfo) (entry : string * SessionInfo)
    : gmap string SessionInfo :=
  if decide (GoTime.Sub now (CreatedAt entry.2) > maxAge)
  then delete entry.1 acc
  else acc.

(** [cleanupExpiredSessions]: the range loop visits the entries of
    the map as it was when the loop started, deleting as it goes. *)
Definition cleanupExpiredSessions (now : Time) (maxAge : Z)
    (sm : SessionManager) : SessionManager :=
  {| sessions :=
       foldl (cleanup_entry now maxAge) (sessions sm)
         (map_to_list (sessions sm)) |}.

Definition GetActiveSessions (sm : SessionManager) : list SessionInfo :=
  snd <$> map_to_list (sessions sm).

(** What the goroutine of [StartCleanupWorker] selects on. *)
Inductive WorkerEvent :=
  | CtxDone
  | TickerC (now : Time).

Fixpoint StartCleanupWorker (events : list WorkerEvent) (maxAge : Z)
    (sm : SessionManager) : SessionManager :=
  match events with
  | [] => sm
  | CtxDone :: _ => sm
  | TickerC now :: events =>
      StartCleanupWorker events maxAge (cleanupExpiredSessions now maxAge sm)
  end.

End manager.

Arguments SessionInfo metadata : clear implicits.
Arguments SessionManager metadata : clear implicits.

End Session.

(** ** [Registry] and [PluginManager] (pkg/plugins) *)

Module Plugins.

Definition PluginType := string.
Definition PluginTypeIngress : PluginType := "ingress".
Definition PluginTypeEgress : PluginType := "egress".
Definition PluginTypeTransform : PluginType := "transform".

Inductive PluginError :=
  | ErrAlreadyRegistered (name : string)
      (* "plugin already registered: %s" *)
  | ErrNotFound (pType : PluginType) (name : string)
      (* "plugin not found: %s/%s" *)
  | ErrCreate (cause : PluginError)
      (* "failed to create plugin: %w" *)
  | ErrInitialize (cause : PluginError)
      (* "failed to initialize plugin: %w" *)
  | ErrNotRunning (name : string)
      (* "plugin not running: %s" *)
  | ErrStatusNotFound (name : string)
      (* "plugin not found: %s" *)
  | ErrPlugin (msg : string).
      (* an error of a plugin's own *)

Section plugins.
(** The values of the [config map[string]interface{}] argument. *)
Context {config : Type}.

(** The [Plugin] interface: an instance answers [Initialize] and
    [Stop]. *)
Record Plugin := mkPlugin {
  Initialize : config → option PluginError;
  Stop : option PluginError
}.

Definition PluginFactory := unit → Plugin.

Record Registry := mkRegistry {
  plugins : gmap string (gmap string PluginFactory)
}.

Definition NewRegistry : Registry := {| plugins := ∅ |}.

Definition Register (pType : PluginType) (name : string)
    (factory : PluginFactory) (r : Registry)
    : Registry * option PluginError :=
  let r1 :=
    match plugins r !! pType with
    | None => {| plugins := <[pType := ∅]> (plugins r) |}
    | Some _ => r
    end in
  match (plugins r1 !! pType) ≫= (.!! name) with
  | Some _ => (r1, Some (ErrAlreadyRegistered name))
  | None =>
      ({| plugins := alter (insert name factory) pType (plugins r1) |}, None)
  end.

Definition Create (pType : PluginType) (name : string) (r : Registry)
    : result PluginError Plugin :=
  match plugins r !! pType with
  | Some factories =>
      match factories !! name with
      | Some factory => Ok (factory ())
      | None => Err (ErrNotFound pType name)
      end
  | None => Err (ErrNotFound pType name)
  end.

Record PluginStatus := mkStatus {
  Running : bool;
  StartTime : Time;
  Error : option PluginError
}.

Record PluginManager := mkPluginManager {
  registry : Registry;
  status : gmap string PluginStatus
}.

Definition NewPluginManager (registry : Registry) : PluginManager :=
  {| registry := registry; status := ∅ |}.

(** [StartPlugin]; [now] is the reading of [time.Now()]. *)
Definition StartPlugin (now : Time) (pType : PluginType) (name : string)
    (cfg : config) (pm : PluginManager)
    : PluginManager * option PluginError :=
  match Create pType name (registry pm) with
  | Err err => (pm, Some (ErrCreate err))
  | Ok plugin =>
      match Initialize plugin cfg with
      | Some err => (pm, Some (ErrInitialize err))
      | None =>
          ({| registry := registry pm;
              status :=
                <[name := {| Running := true; StartTime := now; Error := None |}]>
                  (status pm) |},
           None)
      end
  end.

Definition StopPlugin (name : string) (pm : PluginManager)
    : PluginManager * option PluginError :=
  match status pm !! name with
  | Some st =>
      if Running st then
        ({| registry := registry pm;
            status :=
              <[name := {| Running := false; StartTime := StartTime st; Error := None |}]>
                (status pm) |},
         None)
      else (pm, Some (ErrNotRunning name))
  | None => (pm, Some (ErrNotRunning name))
  end.

Definition GetPluginStatus (name : string) (pm : PluginManager)
    : result PluginError PluginStatus :=
  match status pm !! name with
  | None => Err (ErrStatusNotFound name)
  | Some st => Ok st
  end.

(** The factory stored for a kind and name, if any. *)
Definition lookup_factory (r : Registry) (pType : PluginType)
    (name : string) : option PluginFactory :=
  (plugins r !! pType) ≫= (.!! name).

(** A sequence of [Register] calls, with the error of each. *)
Fixpoint run_register
    (calls : list (PluginType * string * PluginFactory)) (r : Registry)
    : Registry * list (option PluginError) :=
  match calls with
  | [] => (r, [])
  | (pType, name, factory) :: calls =>
      let '(r1, e) := Register pType name factory r in
      let '(r2, es) := run_register calls r1 in
      (r2, e :: es)
  end.

End plugins.

Arguments Plugin config : clear implicits.
Arguments PluginFactory config : clear implicits.
Arguments Registry config : clear implicits.
Arguments PluginStatus : clear implicits.
Arguments PluginManager config : clear implicits.

End Plugins.

(** ** Vocabulary of the properties *)

(** A sequence of [PutFrame] calls. *)
Definition put_ops (fs : list Frame) : list Op := OpPutFrame <$> fs.

(** The frame of the last [PutFrame] of a sequence for a session and
    index, if there is one. *)
Fixpoint latest_put (sessionID : string) (frameIndex : Z) (fs : list Frame)
    : option Frame :=
  match fs with
  | [] => None
  | f :: fs =>
      match latest_put sessionID frameIndex fs with
      | Some g => Some g
      | None =>
          if decide (SessionID f = sessionID ∧ Index f = frameIndex)
          then Some f else None
      end
  end.

(** No [PutFrame] of the sequence, run from the memory store [s], hits a
    session and index that the store holds at that point. *)
Fixpoint no_overwrite (ops : list Op) (s : Mem.MemoryStorage) : Prop :=
  match ops with
  | [] => True
  | op :: ops =>
      match op with
      | OpPutFrame f =>
          (Mem.frames s !! SessionID f) ≫= (.!! Index f) = None
      | _ => True
      end ∧
      no_overwrite ops (mem_step op s).1
  end.

(** Every frame put by the sequence marshals. *)
Definition all_marshal {payload} `{!FrameCodec payload} (ops : list Op) : Prop :=
  Forall (λ op, match op with
                | OpPutFrame f => is_Some (marshal f)
                | _ => True
                end) ops.

(** The Redis store [rs] holds what the memory store [ms] holds: the
    same sessions, and for each session a list that decodes to the
    frames of the session's map, one per index. *)
Definition same_content {payload} `{!FrameCodec payload}
    (ms : Mem.MemoryStorage) (rs : Redis.RedisStorage payload) : Prop :=
  Mem.inv ms ∧
  Redis.well_typed rs ∧
  Redis.members rs = Mem.sessions ms ∧
  ∀ sessionID,
    match Mem.frames ms !! sessionID with
    | None => Redis.frame_list rs sessionID = []
    | Some sessionFrames =>
        ∃ fs, Redis.decode_frames (Redis.frame_list rs sessionID) = Ok fs ∧
              NoDup (Index <$> fs) ∧
              ∀ i f, sessionFrames !! i = Some f ↔ f ∈ fs ∧ Index f = i
    end.

(** Two frames of session ["s"] under index 0 that differ in their
    payload, and frames of other sessions and indices. *)
Definition frame_s0_a : Frame :=
  mkFrame "s" 0 [x01%byte] (mkTime 0 None) "video" "h264" true.
Definition frame_s0_b : Frame :=
  mkFrame "s" 0 [x02%byte] (mkTime 0 None) "video" "h264" true.
Definition frame_s1 : Frame :=
  mkFrame "s" 1 [x03%byte] (mkTime 0 None) "video" "h264" false.
Definition frame_a5 : Frame :=
  mkFrame "a" 5 [x04%byte] (mkTime 0 None) "audio" "opus" false.

(** Two readings of [time.Now] half a second apart within the second
    2026-10-31 00:00:00 UTC, and one two hours later. *)
Definition now_a : Time :=
  mkTime 1793404800000000000 (Some 5000000000).
Definition now_b : Time :=
  mkTime 1793404800500000000 (Some 5500000000).
Definition now_c : Time :=
  mkTime 1793412000000000000 (Some 7205000000000).

(** A plugin whose [Initialize] accepts every configuration, and one
    whose [Initialize] fails. *)
Definition plugin_ok : Plugins.Plugin unit :=
  {| Plugins.Initialize := λ _, None; Plugins.Stop := None |}.
Definition plugin_failing : Plugins.Plugin unit :=
  {| Plugins.Initialize := λ _, Some (Plugins.ErrPlugin "no device");
     Plugins.Stop := None |}.

(** ** Further vocabulary *)

(** Every frame of the memory store is stored under its own session ID
    and index, and no session of the store is without frames. *)
Definition mem_keyed (s : Mem.MemoryStorage) : Prop :=
  ∀ sessionID sessionFrames,
    Mem.frames s !! sessionID = Some sessionFrames →
    sessionFrames ≠ ∅ ∧
    ∀ i f, sessionFrames !! i = Some f → SessionID f = sessionID ∧ Index f = i.

(** The operation writes to the session: a put of one of its frames, or
    its deletion. *)
Definition writes_to (op : Op) (sessionID : string) : Prop :=
  match op with
  | OpPutFrame f => SessionID f = sessionID
  | OpDeleteSession sid => sid = sessionID
  | _ => False
  end.

(** The frame of the first [PutFrame] of a sequence for a session and
    index, if there is one. *)
Fixpoint earliest_put (sessionID : string) (frameIndex : Z) (fs : list Frame)
    : option Frame :=
  match fs with
  | [] => None
  | f :: fs =>
      if decide (SessionID f = sessionID ∧ Index f = frameIndex) then Some f
      else earliest_put sessionID frameIndex fs
  end.

(** The error an observation carries, if any. *)
Definition obs_error (o : Obs) : option StorageError :=
  match o with
  | ObsError e => e
  | ObsFrame (Err e) | ObsFrames (Err e) | ObsSessions (Err e) => Some e
  | _ => None
  end.

(** "session not found" and "frame not found", as opposed to the errors
    that report a failed backend command or a payload that does not
    decode. *)
Definition is_not_found (e : StorageError) : bool :=
  match e with
  | ErrSessionNotFound _ | ErrFrameNotFound _ _ => true
  | _ => false
  end.

(** The keys of the Redis store are well typed and every list of the
    store decodes. *)
Definition redis_sound {payload} `{!FrameCodec payload}
    (s : Redis.RedisStorage payload) : Prop :=
  Redis.well_typed s ∧
  ∀ sessionID, ∃ fs, Redis.decode_frames (Redis.frame_list s sessionID) = Ok fs.


(** The clock readings of the ticks the cleanup worker serves: those
    before the context is done. *)
Fixpoint ticks_before_done (events : list Session.WorkerEvent) : list Time :=
  match events with
  | [] => []
  | Session.CtxDone :: _ => []
  | Session.TickerC now :: events => now :: ticks_before_done events
  end.

(** ** The [Storage] interface, as the plugins use it *)

Module Store.

(** The methods of the [Storage] interface that a plugin's [Run] calls
    on the store it is given ([Close] is called by the runners' [main]
    only). *)
Class Storage (S : Type) := {
  PutFrame : Frame → S → S * option StorageError;
  GetFrame : string → Z → S → sresult Frame;
  ListFrames : string → S → sresult (list Frame);
  ListSessions : S → sresult (list string);
  DeleteSession : string → S → S * option StorageError
}.

End Store.

#[global] Instance mem_storage : Store.Storage Mem.MemoryStorage := {|
  Store.PutFrame := Mem.PutFrame;
  Store.GetFrame := Mem.GetFrame;
  Store.ListFrames := Mem.ListFrames;
  Store.ListSessions := Mem.ListSessions;
  Store.DeleteSession := Mem.DeleteSession
|}.

#[global] Instance redis_storage {payload} `{!FrameCodec payload}
    : Store.Storage (Redis.RedisStorage payload) := {|
  Store.PutFrame := Redis.PutFrame;
  Store.GetFrame := Redis.GetFrame;
  Store.ListFrames := Redis.ListFrames;
  Store.ListSessions := Redis.ListSessions;
  Store.DeleteSession := Redis.DeleteSession
|}.

(** ** The camera ingress plugin (plugins/ingress/camera) *)

(** A value of a [map[string]interface{}] configuration, by its dynamic
    type: the types the plugins assert, and any other. *)
Inductive ConfigValue :=
  | CfgString (s : string)
  | CfgInt (n : Z)
  | CfgBytes (b : list byte)
  | CfgOther.

Module Camera.

Record CameraPlugin := mkCamera {
  deviceID : string;
  fps : Z
}.

Definition NewCameraPlugin : CameraPlugin :=
  {| deviceID := ""; fps := 30 |}.

(** [Initialize]: an option is taken when it is present with the
    asserted type. *)
Definition Initialize (config : gmap string ConfigValue) (p : CameraPlugin)
    : CameraPlugin * option Plugins.PluginError :=
  let p1 :=
    match config !! "device_id" with
    | Some (CfgString d) => {| deviceID := d; fps := fps p |}
    | _ => p
    end in
  let p2 :=
    match config !! "fps" with
    | Some (CfgInt n) => {| deviceID := deviceID p1; fps := n |}
    | _ => p1
    end in
  (p2, None).

Definition Stop (p : CameraPlugin) : option Plugins.PluginError := None.

(** [ctx.Err()] once the context is done. *)
Inductive CtxError := Canceled | DeadlineExceeded.

(** What the [select] of [Run] receives: the context is done, or the
    ticker fires (with the reading of [time.Now] taken for the frame). *)
Inductive RunEvent :=
  | CtxDone (err : CtxError)
  | TickerC (now : Time).

Inductive RunError :=
  | ErrCtx (err : CtxError)
  | ErrStore (err : StorageError).

(** How [Run] ends on a sequence of events: it panics, it returns an
    error, or it is waiting in its [select] when the events are used
    up. *)
Inductive RunResult :=
  | Panic (msg : string)
  | Returned (err : RunError)
  | Waiting.

(** The frame [Run] builds at a tick. *)
Definition frame (deviceID : string) (frameIndex : Z) (now : Time) : Frame :=
  {| SessionID := deviceID;
     Index := frameIndex;
     Data := list_byte_of_string "mock frame data";
     Timestamp := now;
     MediaType := "video";
     Codec := "";
     KeyFrame := false |}.

Section run.
Context {S : Type} `{!Store.Storage S}.

(** The loop of [Run]; [frameIndex] is an [int64]. *)
Fixpoint loop (deviceID : string) (frameIndex : Z) (events : list RunEvent)
    (store : S) : S * RunResult :=
  match events with
  | [] => (store, Waiting)
  | CtxDone err :: _ => (store, Returned (ErrCtx err))
  | TickerC now :: events =>
      let '(store, err) := Store.PutFrame (frame deviceID frameIndex now) store in
      match err with
      | Some e => (store, Returned (ErrStore e))
      | None => loop deviceID (GoTime.wrap64 (frameIndex + 1)) events store
      end
  end.

(** [Run]: the ticker interval is [time.Second / time.Duration(p.fps)],
    an integer division that panics on a zero divisor, and
    [time.NewTicker] panics on an interval that is not positive. *)
Definition Run (p : CameraPlugin) (events : list RunEvent) (store : S)
    : S * RunResult :=
  if decide (fps p = 0) then
    (store, Panic "runtime error: integer divide by zero")
  else if decide (GoTime.Second `quot` fps p <= 0) then
    (store, Panic "non-positive interval for NewTicker")
  else loop (deviceID p) 0 events store.

End run.

(** The camera as the manager sees it, through the [Plugin] interface. *)
Definition as_plugin (p : CameraPlugin) : Plugins.Plugin (gmap string ConfigValue) :=
  {| Plugins.Initialize := λ config, (Initialize config p).2;
     Plugins.Stop := Stop p |}.


End Camera.

(** ** Codecs (pkg/frames) *)

Module Frames.

Definition CodecType := string.
Definition CodecH264 : CodecType := "h264".
Definition CodecVP8 : CodecType := "vp8".
Definition CodecVP9 : CodecType := "vp9".
Definition CodecOpus : CodecType := "opus".
Definition CodecAAC : CodecType := "aac".

Definition IsVideo (c : CodecType) : bool :=
  bool_decide (c = CodecH264) || bool_decide (c = CodecVP8)
  || bool_decide (c = CodecVP9).

Definition IsAudio (c : CodecType) : bool :=
  bool_decide (c = CodecOpus) || bool_decide (c = CodecAAC).

End Frames.

(** ** The watermark transform plugin (plugins/transforms/watermark) *)

(** The functions of the [image], [image/draw] and [image/png] packages
    the plugin calls, on an open type of images:
    - [ImageDecode] is [image.Decode] ([None] when it returns an error);
    - [PngDecode] is [png.Decode], with the message of its error;
    - [Bounds] is the [Bounds] method of an image;
    - [Stamp img wm r] is the image [out] after
      [out := image.NewRGBA(img.Bounds())],
      [draw.Draw(out, img.Bounds(), img, image.Point{}, draw.Src)] and
      [draw.Draw(out, r, wm, image.Point{}, draw.Over)];
    - [PngEncode] is [png.Encode] into a fresh buffer ([None] when it
      returns an error). *)
Module Watermark.

Record Point := mkPoint { X : Z; Y : Z }.
Record Rectangle := mkRectangle { Min : Point; Max : Point }.

Class ImageLib (Image : Type) := {
  ImageDecode : list byte → option Image;
  PngDecode : list byte → result string Image;
  Bounds : Image → Rectangle;
  Stamp : Image → Image → Rectangle → Image;
  PngEncode : Image → option (list byte)
}.

(** Addition and subtraction of [int] values. *)
Definition int_add (a b : Z) : Z := GoTime.wrap64 (a + b).
Definition int_sub (a b : Z) : Z := GoTime.wrap64 (a - b).

(** [r.Add(p)]. *)
Definition Rectangle_Add (r : Rectangle) (p : Point) : Rectangle :=
  {| Min := {| X := int_add (X (Min r)) (X p); Y := int_add (Y (Min r)) (Y p) |};
     Max := {| X := int_add (X (Max r)) (X p); Y := int_add (Y (Max r)) (Y p) |} |}.

Section plugin.
Context {Image : Type} `{!ImageLib Image}.

(** [watermark] is [nil] until [Initialize] has decoded one. *)
Record WatermarkPlugin := mkWatermark {
  watermark : option Image;
  position : Point
}.

Definition NewWatermarkPlugin : WatermarkPlugin :=
  {| watermark := None; position := {| X := 0; Y := 0 |} |}.

Definition Initialize (config : gmap string ConfigValue) (p : WatermarkPlugin)
    : WatermarkPlugin * option Plugins.PluginError :=
  let decoded :=
    match config !! "watermark_image" with
    | Some (CfgBytes watermarkData) =>
        match PngDecode watermarkData with
        | Err msg => Err msg
        | Ok wm => Ok {| watermark := Some wm; position := position p |}
        end
    | _ => Ok p
    end in
  match decoded with
  | Err msg => (p, Some (Plugins.ErrPlugin msg))
  | Ok p1 =>
      (match config !! "position_x" with
       | Some (CfgInt x) =>
           match config !! "position_y" with
           | Some (CfgInt y) =>
               {| watermark := watermark p1; position := {| X := x; Y := y |} |}
           | _ => p1
           end
       | _ => p1
       end, None)
  end.

(** What the body of the loop over the frames of a session does with
    one frame: it goes on to the next one, it panics on the [nil]
    watermark, or it puts the frame with the new data. *)
Inductive FrameResult :=
  | Skip
  | PanicNil
  | Emit (frame : Frame).

Definition process (p : WatermarkPlugin) (frame : Frame) : FrameResult :=
  if decide (MediaType frame = "video") then
    match ImageDecode (Data frame) with
    | None => Skip
    | Some img =>
        let bounds := Bounds img in
        match watermark p with
        | None => PanicNil
        | Some wm =>
            let pos := position p in
            let pos :=
              if decide (X pos < 0) then
                {| X := int_add (int_sub (X (Max bounds)) (X (Max (Bounds wm)))) (X pos);
                   Y := Y pos |}
              else pos in
            let pos :=
              if decide (Y pos < 0) then
                {| X := X pos;
                   Y := int_add (int_sub (Y (Max bounds)) (Y (Max (Bounds wm)))) (Y pos) |}
              else pos in
            match PngEncode (Stamp img wm (Rectangle_Add (Bounds wm) pos)) with
            | None => Skip
            | Some data =>
                Emit {| SessionID := SessionID frame;
                        Index := Index frame;
                        Data := data;
                        Timestamp := Timestamp frame;
                        MediaType := MediaType frame;
                        Codec := Codec frame;
                        KeyFrame := KeyFrame frame |}
            end
        end
    end
  else Skip.

Section run.
Context {S : Type} `{!Store.Storage S}.

(** The loop over the frames of one session; the flag tells a panic. *)
Fixpoint process_frames (p : WatermarkPlugin) (frames : list Frame) (store : S)
    : S * bool :=
  match frames with
  | [] => (store, false)
  | frame :: frames =>
      match process p frame with
      | Skip => process_frames p frames store
      | PanicNil => (store, true)
      | Emit frame' =>
          let '(store, _) := Store.PutFrame frame' store in
          process_frames p frames store
      end
  end.

(** The loop over the sessions. *)
Fixpoint process_sessions (p : WatermarkPlugin) (sessions : list string)
    (store : S) : S * bool :=
  match sessions with
  | [] => (store, false)
  | sessionID :: sessions =>
      match Store.ListFrames sessionID store with
      | Err _ => process_sessions p sessions store
      | Ok frames =>
          let '(store, panicked) := process_frames p frames store in
          if panicked then (store, true)
          else process_sessions p sessions store
      end
  end.

(** One run of the [default] branch of the [select]. *)
Definition pass (p : WatermarkPlugin) (store : S) : S * bool :=
  match Store.ListSessions store with
  | Err _ => (store, false)
  | Ok sessions => process_sessions p sessions store
  end.

(** What the [select] of [Run] finds: the context done, or not yet. *)
Inductive RunEvent :=
  | CtxDone (err : Camera.CtxError)
  | Default.

Fixpoint Run (p : WatermarkPlugin) (events : list RunEvent) (store : S)
    : S * Camera.RunResult :=
  match events with
  | [] => (store, Camera.Waiting)
  | CtxDone err :: _ => (store, Camera.Returned (Camera.ErrCtx err))
  | Default :: events =>
      let '(store, panicked) := pass p store in
      if panicked then
        (store, Camera.Panic "runtime error: invalid memory address or nil pointer dereference")
      else Run p events store
  end.

End run.

(** The frame as one pass leaves it: with the new data when the body of
    the loop puts it, as it is otherwise. *)
Definition stamp (p : WatermarkPlugin) (frame : Frame) : Frame :=
  match process p frame with
  | Emit frame' => frame'
  | _ => frame
  end.

(** The frames the loop over a session's frames puts. *)
Definition emitted (p : WatermarkPlugin) (frames : list Frame) : list Frame :=
  omap (λ frame, match process p frame with
                 | Emit frame' => Some frame'
                 | _ => None
                 end) frames.

(** The memory store with every frame as one pass leaves it. *)
Definition stamp_store (p : WatermarkPlugin) (s : Mem.MemoryStorage)
    : Mem.MemoryStorage :=
  {| Mem.frames := fmap (M := gmap Z) (stamp p) <$> Mem.frames s;
     Mem.sessions := Mem.sessions s |}.

End plugin.

Arguments WatermarkPlugin Image : clear implicits.

(** An image library for examples: an image is its bytes, every byte
    string decodes, and stamping appends the watermark's bytes. *)
#[global] Instance marker_images : ImageLib (list byte) := {|
  ImageDecode data := Some data;
  PngDecode data := Ok data;
  Bounds _ := {| Min := {| X := 0; Y := 0 |}; Max := {| X := 0; Y := 0 |} |};
  Stamp img wm _ := (img ++ wm)%list;
  PngEncode img := Some img
|}.


End Watermark.

(** * Properties *)

(** ** The definitions on concrete inputs *)

Example Format_now_a :
  GoTime.Format_20060102150405 0 now_a = "20261031000000".
Proof. reflexivity. Qed.

Example Format_zone :
  GoTime.Format_20060102150405 (-3600) now_a = "20261030230000".
Proof. reflexivity. Qed.

Example generateSessionID_now_a :
  Session.generateSessionID 0 now_a = "session_20261031000000".
Proof. reflexivity. Qed.

Example Sub_now_c_now_a : GoTime.Sub now_c now_a = 7200 * GoTime.Second.
Proof. reflexivity. Qed.

Example Sub_saturates :
  GoTime.Sub (mkTime 0 (Some (2 ^ 62))) (mkTime 0 (Some (- 2 ^ 62 - 5)))
    = GoTime.maxDuration.
Proof. reflexivity. Qed.

Example Strings_bytewise : GoSort.Strings ["b"; "a"; "B"; "ab"] = ["B"; "a"; "ab"; "b"].
Proof. reflexivity. Qed.

Example LRange_middle :
  RedisServer.LRange "k" 1 (-2)
    (<["k" := RedisServer.VList [1; 2; 3; 4]]> ∅ : gmap string (RedisServer.value Z))
    = RedisServer.Reply [2; 3].
Proof. reflexivity. Qed.

Example mem_run_example :
  (run mem_step
     [OpPutFrame frame_s1; OpPutFrame frame_a5; OpPutFrame frame_s0_a;
      OpListFrames "s"; OpListSessions; OpDeleteSession "s";
      OpGetFrame "s" 1; OpDeleteSession "s"]
     Mem.NewMemoryStorage).2
  = [ObsError None; ObsError None; ObsError None;
     ObsFrames (Ok [frame_s0_a; frame_s1]); ObsSessions (Ok ["a"; "s"]);
     ObsError None; ObsFrame (Err (ErrSessionNotFound "s"));
     ObsError (Some (ErrSessionNotFound "s"))].
Proof. reflexivity. Qed.

Example redis_run_example :
  (run redis_step
     [OpPutFrame frame_s1; OpPutFrame frame_a5; OpPutFrame frame_s0_a;
      OpListFrames "s"; OpListSessions; OpDeleteSession "s";
      OpGetFrame "s" 1; OpDeleteSession "s"]
     (Redis.NewRedisStorage "relais:")).2
  = [ObsError None; ObsError None; ObsError None;
     ObsFrames (Ok [frame_s0_a; frame_s1]); ObsSessions (Ok ["a"; "s"]);
     ObsError None; ObsFrame (Err (ErrSessionNotFound "s"));
     ObsError (Some (ErrSessionNotFound "s"))].
Proof. reflexivity. Qed.

(** Membership goals over unions, differences and singletons. *)
Ltac solve_elem :=
  rewrite ?elem_of_union, ?elem_of_difference, ?elem_of_singleton,
    ?elem_of_empty in *;
  intuition congruence.

(** ** Sorting *)

Section string_order.
Import GoSort.

Lemma string_compare_refl (a : string) : (a ?= a)%string = Eq.
Proof.
  induction a as [|c a IH]; simpl; [done|].
  unfold Ascii.compare. by rewrite N.compare_refl.
Qed.

Lemma string_compare_lt_trans (a b c : string) :
  (a ?= b)%string = Lt → (b ?= c)%string = Lt → (a ?= c)%string = Lt.
Proof.
  revert b c. induction a as [|x a IH]; intros [|y b] [|z c]; simpl; try done.
  unfold Ascii.compare.
  destruct (N.compare_spec (N_of_ascii x) (N_of_ascii y)) as [Hxy|Hxy|Hxy];
    destruct (N.compare_spec (N_of_ascii y) (N_of_ascii z)) as [Hyz|Hyz|Hyz];
    try done; intros Hab Hbc.
  - rewrite Hxy, Hyz, N.compare_refl. eauto.
  - rewrite Hxy. by rewrite (proj2 (N.compare_lt_iff _ _) Hyz).
  - rewrite <- Hyz. by rewrite (proj2 (N.compare_lt_iff _ _) Hxy).
  - by rewrite (proj2 (N.compare_lt_iff _ _) (N.lt_trans _ _ _ Hxy Hyz)).
Qed.

Lemma string_lt_le (a b : string) : string_lt a b → string_le a b.
Proof. unfold string_lt, string_le, String.ltb, String.leb. by destruct (a ?= b)%string. Qed.

Lemma string_le_lt_or_eq (a b : string) :
  string_le a b → string_lt a b ∨ a = b.
Proof.
  unfold string_lt, string_le, String.ltb, String.leb.
  destruct (a ?= b)%string eqn:E; try done; auto.
  right. by apply String.compare_eq_iff.
Qed.

Lemma string_lt_irrefl (a : string) : ¬ string_lt a a.
Proof. unfold string_lt, String.ltb. by rewrite string_compare_refl. Qed.

#[global] Instance string_le_total : Total string_le.
Proof. intros a b. apply String.leb_total. Qed.

#[global] Instance string_le_antisym : AntiSymm (=) string_le.
Proof. intros a b. apply String.leb_antisym. Qed.

#[global] Instance string_lt_trans : Transitive string_lt.
Proof.
  intros a b c. unfold string_lt, String.ltb.
  destruct (a ?= b)%string eqn:E1; try done.
  destruct (b ?= c)%string eqn:E2; try done.
  by rewrite (string_compare_lt_trans a b c).
Qed.

#[global] Instance string_le_trans : Transitive string_le.
Proof.
  intros a b c [Hab| ->]%string_le_lt_or_eq [Hbc| ->]%string_le_lt_or_eq;
    try by apply string_lt_le.
  - apply string_lt_le. by etrans.
  - unfold string_le, String.leb. by rewrite string_compare_refl.
Qed.

(** A duplicate-free list sorted by [<=] is sorted by [<]. *)
Lemma StronglySorted_le_NoDup_lt (l : list string) :
  StronglySorted string_le l → NoDup l → StronglySorted string_lt l.
Proof.
  induction 1 as [|x l Hl IH Hx]; intros Hnd; constructor.
  - apply IH. by apply NoDup_cons in Hnd as [_ ?].
  - apply NoDup_cons in Hnd as [Hnotin _].
    apply Forall_forall. intros y Hy.
    rewrite Forall_forall in Hx.
    destruct (string_le_lt_or_eq x y (Hx y Hy)) as [?| ->]; done.
Qed.

Lemma Strings_Permutation (l : list string) : Strings l ≡ₚ l.
Proof. apply merge_sort_Permutation. Qed.

Lemma Strings_StronglySorted (l : list string) :
  StronglySorted string_le (Strings l).
Proof. apply StronglySorted_merge_sort; apply _. Qed.

(** [sort.Strings] over the members of a set: strictly ascending, and
    exactly the members. *)
Lemma Strings_elements_sorted (X : gset string) :
  StronglySorted string_lt (Strings (elements X)).
Proof.
  apply StronglySorted_le_NoDup_lt; [apply Strings_StronglySorted|].
  rewrite Strings_Permutation. apply NoDup_elements.
Qed.

Lemma Strings_elements_elem_of (X : gset string) (x : string) :
  x ∈ Strings (elements X) ↔ x ∈ X.
Proof. by rewrite Strings_Permutation, elem_of_elements. Qed.

Lemma Strings_elements_length (X : gset string) :
  length (Strings (elements X)) = size X.
Proof. by rewrite Strings_Permutation. Qed.

End string_order.

(** A key function without duplicates on a list is injective on it. *)
Lemma NoDup_fmap_elem_of_inj {A B} (f : A → B) (l : list A) (x y : A) :
  NoDup (f <$> l) → x ∈ l → y ∈ l → f x = f y → x = y.
Proof.
  induction l as [|a l IH]; simpl; [by intros _ ?%elem_of_nil|].
  intros [Hnotin Hnd]%NoDup_cons [->|Hx]%elem_of_cons [->|Hy]%elem_of_cons E;
    auto.
  - destruct Hnotin. rewrite E. apply list_elem_of_fmap. eauto.
  - destruct Hnotin. rewrite <- E. apply list_elem_of_fmap. eauto.
Qed.

Section frame_order.

#[global] Instance index_le_total : Total index_le.
Proof. intros f g. unfold index_le. lia. Qed.

#[global] Instance index_le_trans : Transitive index_le.
Proof. intros f g h. unfold index_le. lia. Qed.

Lemma sort_frames_Permutation (l : list Frame) : sort_frames l ≡ₚ l.
Proof. apply merge_sort_Permutation. Qed.

Lemma sort_frames_StronglySorted (l : list Frame) :
  StronglySorted index_le (sort_frames l).
Proof. apply StronglySorted_merge_sort; apply _. Qed.

Lemma StronglySorted_index_le_NoDup_lt (l : list Frame) :
  StronglySorted index_le l → NoDup (Index <$> l) →
  StronglySorted index_lt l.
Proof.
  induction 1 as [|x l Hl IH Hx]; simpl; intros Hnd; constructor.
  - apply IH. by apply NoDup_cons in Hnd as [_ ?].
  - apply NoDup_cons in Hnd as [Hnotin _].
    apply Forall_forall. intros y Hy.
    rewrite Forall_forall in Hx. specialize (Hx y Hy).
    unfold index_le in Hx. unfold index_lt.
    destruct (decide (Index x = Index y)) as [E|]; [|lia].
    destruct Hnotin. rewrite E. apply list_elem_of_fmap. eauto.
Qed.

(** With pairwise distinct indices the result of the sort does not
    depend on the order in which the frames were collected. *)
Lemma sort_frames_order_irrelevant (l1 l2 : list Frame) :
  l1 ≡ₚ l2 → NoDup (Index <$> l1) → sort_frames l1 = sort_frames l2.
Proof.
  intros Hp Hnd.
  apply (StronglySorted_unique_strong index_le).
  - intros f g Hf Hg Hfg Hgf. unfold index_le in *.
    assert (Index f = Index g) as E by lia.
    rewrite sort_frames_Permutation in Hf, Hg.
    apply (NoDup_fmap_elem_of_inj Index l1); auto.
    by rewrite Hp.
  - apply sort_frames_StronglySorted.
  - apply sort_frames_StronglySorted.
  - by rewrite !sort_frames_Permutation.
Qed.

End frame_order.

(** ** [MemoryStorage] *)

Section mem_facts.
Import Mem.

Implicit Types (s : MemoryStorage) (f : Frame).

Lemma mem_eq s1 s2 :
  frames s1 = frames s2 → sessions s1 = sessions s2 → s1 = s2.
Proof. destruct s1, s2; simpl; congruence. Qed.

Lemma mem_PutFrame_frames f s :
  frames (PutFrame f s).1 =
    <[SessionID f := <[Index f := f]> (default ∅ (frames s !! SessionID f))]>
      (frames s).
Proof.
  unfold PutFrame. apply map_eq. intros k.
  destruct (frames s !! SessionID f) as [m|] eqn:E; cbn [fst frames default];
    destruct (decide (SessionID f = k)) as [<-|Hne].
  - by rewrite lookup_alter_eq, lookup_insert_eq, E.
  - by rewrite lookup_alter_ne, lookup_insert_ne.
  - by rewrite lookup_alter_eq, !lookup_insert_eq.
  - by rewrite lookup_alter_ne, !lookup_insert_ne.
Qed.

Lemma mem_PutFrame_sessions f s :
  sessions (PutFrame f s).1 =
    match frames s !! SessionID f with
    | Some _ => sessions s
    | None => {[SessionID f]} ∪ sessions s
    end.
Proof. unfold PutFrame. by destruct (frames s !! SessionID f). Qed.

Lemma mem_PutFrame_ok f s : (PutFrame f s).2 = None.
Proof. done. Qed.

Lemma mem_inv_New : inv NewMemoryStorage.
Proof.
  intros k. simpl. rewrite lookup_empty.
  split; [by intros ?%not_elem_of_empty | by intros []].
Qed.

Lemma mem_inv_PutFrame f s : inv s → inv (PutFrame f s).1.
Proof.
  intros Hinv k.
  rewrite mem_PutFrame_frames, mem_PutFrame_sessions, lookup_insert.
  specialize (Hinv k).
  case_decide as Hk; subst.
  - destruct (frames s !! SessionID f) eqn:E.
    + rewrite Hinv. split; eauto.
    + split; [eauto | solve_elem].
  - destruct (frames s !! SessionID f) eqn:E; [done|].
    rewrite <- Hinv. solve_elem.
Qed.

Lemma mem_inv_DeleteSession sid s : inv s → inv (DeleteSession sid s).1.
Proof.
  intros Hinv k. unfold DeleteSession.
  destruct (frames s !! sid) eqn:E; simpl; [|apply Hinv].
  rewrite lookup_delete. specialize (Hinv k).
  case_decide; subst.
  - split; [solve_elem | by intros []].
  - rewrite <- Hinv. solve_elem.
Qed.

Lemma mem_step_reads op s :
  match op with
  | OpPutFrame _ | OpDeleteSession _ => True
  | _ => (mem_step op s).1 = s
  end.
Proof. by destruct op. Qed.

Lemma mem_inv_step op s : inv s → inv (mem_step op s).1.
Proof.
  intros Hinv. destruct op as [f|sid i|sid| |sid]; simpl; try done.
  - by apply mem_inv_PutFrame.
  - pose proof (mem_inv_DeleteSession sid s Hinv).
    by destruct (DeleteSession sid s).
Qed.

Lemma mem_inv_run ops s : inv s → inv (run mem_step ops s).1.
Proof.
  revert s. induction ops as [|op ops IH]; intros s Hinv; simpl; [done|].
  pose proof (mem_inv_step op s Hinv) as H1.
  destruct (mem_step op s) as [s1 o]. simpl in H1.
  specialize (IH s1 H1). by destruct (run mem_step ops s1).
Qed.

(** A frame that was just put is the one read back, whatever the
    store held under its session and index. *)
Lemma mem_GetFrame_PutFrame f s :
  GetFrame (SessionID f) (Index f) (PutFrame f s).1 = Ok f.
Proof.
  unfold GetFrame.
  by rewrite mem_PutFrame_frames, lookup_insert_eq, lookup_insert_eq.
Qed.

(** Overwrite: of two puts under one session and index, the later is
    read back. *)
Lemma mem_put_put_get f1 f2 s :
  SessionID f1 = SessionID f2 → Index f1 = Index f2 →
  GetFrame (SessionID f1) (Index f1) (PutFrame f2 (PutFrame f1 s).1).1 = Ok f2.
Proof. intros -> ->. apply mem_GetFrame_PutFrame. Qed.

(** X28.  Repeating a put leaves the memory store as the first one left
    it. *)
Lemma mem_PutFrame_idempotent f s :
  (PutFrame f (PutFrame f s).1).1 = (PutFrame f s).1.
Proof.
  apply mem_eq.
  - rewrite !mem_PutFrame_frames, lookup_insert_eq. simpl.
    by rewrite !insert_insert_eq.
  - rewrite (mem_PutFrame_sessions f (PutFrame f s).1).
    by rewrite mem_PutFrame_frames, lookup_insert_eq.
Qed.

(** *** Sequences of puts *)

Lemma latest_put_Some sid i fs f :
  latest_put sid i fs = Some f →
  f ∈ fs ∧ SessionID f = sid ∧ Index f = i.
Proof.
  induction fs as [|g fs IH]; simpl; [done|].
  destruct (latest_put sid i fs) as [h|].
  - intros [= ->]. destruct IH as (? & ? & ?); [done|].
    split; [by apply list_elem_of_further | done].
  - case_decide as Hg; [|done]. intros [= ->].
    split; [apply list_elem_of_here | done].
Qed.

Lemma latest_put_None sid i fs :
  latest_put sid i fs = None →
  ∀ f, f ∈ fs → ¬ (SessionID f = sid ∧ Index f = i).
Proof.
  induction fs as [|g fs IH]; simpl; [by intros _ f ?%elem_of_nil|].
  destruct (latest_put sid i fs) as [h|]; [done|].
  case_decide as Hg; [done|].
  intros _ f [->|Hf]%elem_of_cons; auto.
Qed.

Lemma mem_run_put_ops fs s :
  (run mem_step (put_ops fs) s).1 = foldl (λ s f, (PutFrame f s).1) s fs ∧
  (run mem_step (put_ops fs) s).2 = replicate (length fs) (ObsError None).
Proof.
  revert s. induction fs as [|f fs IH]; intros s; [done|].
  change (put_ops (f :: fs)) with (OpPutFrame f :: put_ops fs).
  cbn [run].
  change (mem_step (OpPutFrame f) s) with ((PutFrame f s).1, ObsError None).
  cbn beta iota. destruct (IH (PutFrame f s).1) as [H1 H2].
  destruct (run mem_step (put_ops fs) (PutFrame f s).1) as [s2 os].
  simpl in *. by subst.
Qed.

Lemma mem_PutFrame_lookup f s sid i :
  (frames (PutFrame f s).1 !! sid) ≫= (.!! i) =
    if decide (SessionID f = sid ∧ Index f = i) then Some f
    else (frames s !! sid) ≫= (.!! i).
Proof.
  rewrite mem_PutFrame_frames.
  destruct (decide (SessionID f = sid)) as [<-|Hs].
  - rewrite lookup_insert_eq. simpl.
    destruct (decide (Index f = i)) as [<-|Hi].
    + rewrite lookup_insert_eq. by rewrite decide_True.
    + rewrite lookup_insert_ne by done. rewrite decide_False by tauto.
      by destruct (frames s !! SessionID f).
  - rewrite lookup_insert_ne by done. by rewrite decide_False by tauto.
Qed.

Lemma mem_puts_lookup fs s sid i :
  (frames (foldl (λ s f, (PutFrame f s).1) s fs) !! sid) ≫= (.!! i) =
    match latest_put sid i fs with
    | Some f => Some f
    | None => (frames s !! sid) ≫= (.!! i)
    end.
Proof.
  revert s. induction fs as [|g fs IH]; intros s; cbn [foldl latest_put]; [done|].
  rewrite IH. destruct (latest_put sid i fs); [done|].
  rewrite mem_PutFrame_lookup. by case_decide.
Qed.

Lemma mem_puts_session fs s sid :
  is_Some (frames (foldl (λ s f, (PutFrame f s).1) s fs) !! sid) ↔
  is_Some (frames s !! sid) ∨ sid ∈ SessionID <$> fs.
Proof.
  revert s. induction fs as [|g fs IH]; intros s; cbn [foldl].
  - split; [auto | by intros [?|?%elem_of_nil]].
  - rewrite fmap_cons, IH, mem_PutFrame_frames, lookup_insert, elem_of_cons.
    destruct (decide (SessionID g = sid)) as [<-|Hne].
    + split; [intros _; right; by left | eauto].
    + split; [intros [?|?]; auto | intros [?|[?|?]]; auto; congruence].
Qed.


End mem_facts.

(** ** The Redis commands and [RedisStorage] *)

Section redis_facts.
Import RedisServer Redis.
Context {payload : Type} `{!FrameCodec payload}.

Implicit Types (s : RedisStorage payload) (db : gmap string (value payload)).

Lemma string_app_inj_l (p a b : string) : p ++ a = p ++ b → a = b.
Proof. induction p as [|c p IH]; simpl; [done|]. intros [= ?]. auto. Qed.

(** The two kinds of key never collide, and distinct sessions have
    distinct list keys. *)
Lemma frameKey_ne_sessionKey s sid : frameKey s sid ≠ sessionKey s.
Proof. unfold frameKey, sessionKey. by intros ?%string_app_inj_l. Qed.

Lemma frameKey_inj s sid1 sid2 :
  frameKey s sid1 = frameKey s sid2 → sid1 = sid2.
Proof.
  unfold frameKey. intros H%string_app_inj_l.
  by apply (string_app_inj_l "frames:") in H.
Qed.

Lemma LRange_all key db l :
  db !! key = Some (VList l) → LRange key 0 (-1) db = Reply l.
Proof.
  intros E. unfold LRange. rewrite E.
  repeat case_decide; try lia.
  - destruct l; [done | simpl in *; lia].
  - replace (Z.to_nat (Z.of_nat (length l) + -1 - 0 + 1)) with (length l) by lia.
    by rewrite drop_0, firstn_all.
Qed.

Lemma LRange_absent key db :
  db !! key = None → LRange key 0 (-1) db = Reply ([] : list payload).
Proof. intros E. unfold LRange. by rewrite E. Qed.

(** *** Reads, in terms of [members] and [frame_list] *)

Lemma redis_SIsMember s sid :
  well_typed s →
  SIsMember (sessionKey s) sid (client s) = Reply (bool_decide (sid ∈ members s)).
Proof.
  intros [Hs _]. unfold SIsMember, members.
  destruct (client s !! sessionKey s) as [[l|m]|] eqn:E.
  - by destruct (Hs l).
  - done.
  - by rewrite bool_decide_eq_false_2 by apply not_elem_of_empty.
Qed.

Lemma redis_LRange s sid :
  well_typed s →
  LRange (frameKey s sid) 0 (-1) (client s) = Reply (frame_list s sid).
Proof.
  intros [_ Hf]. unfold frame_list.
  destruct (client s !! frameKey s sid) as [[l|m]|] eqn:E.
  - by apply LRange_all.
  - by destruct (Hf sid m).
  - by apply LRange_absent.
Qed.

Lemma redis_GetFrame s sid i :
  well_typed s →
  GetFrame sid i s =
    if decide (sid ∈ members s) then scan_frames sid i (frame_list s sid)
    else Err (ErrSessionNotFound sid).
Proof.
  intros Hwt. unfold GetFrame.
  rewrite redis_SIsMember, redis_LRange by done.
  case_decide; [by rewrite bool_decide_eq_true_2 | by rewrite bool_decide_eq_false_2].
Qed.

Lemma redis_ListFrames s sid :
  well_typed s →
  ListFrames sid s =
    if decide (sid ∈ members s) then
      match decode_frames (frame_list s sid) with
      | Err e => Err e
      | Ok frames => Ok (sort_frames frames)
      end
    else Err (ErrSessionNotFound sid).
Proof.
  intros Hwt. unfold ListFrames.
  rewrite redis_SIsMember, redis_LRange by done.
  case_decide; [by rewrite bool_decide_eq_true_2 | by rewrite bool_decide_eq_false_2].
Qed.

Lemma redis_ListSessions s :
  well_typed s →
  ListSessions s = Ok (GoSort.Strings (elements (members s))).
Proof.
  intros [Hs _]. unfold ListSessions, SMembers, members.
  destruct (client s !! sessionKey s) as [[l|m]|] eqn:E.
  - by destruct (Hs l).
  - done.
  - by rewrite elements_empty.
Qed.

(** *** [PutFrame] *)

Lemma redis_well_typed_New p : well_typed (NewRedisStorage p : RedisStorage payload).
Proof. split; intros; simpl; by rewrite lookup_empty. Qed.

Lemma redis_PutFrame_spec f p s :
  well_typed s → marshal f = Some p →
  (PutFrame f s).2 = None ∧
  prefix (PutFrame f s).1 = prefix s ∧
  well_typed (PutFrame f s).1 ∧
  members (PutFrame f s).1 = {[SessionID f]} ∪ members s ∧
  ∀ sid, frame_list (PutFrame f s).1 sid =
           if decide (sid = SessionID f) then (frame_list s sid ++ [p])%list
           else frame_list s sid.
Proof.
  intros [Hs Hf] Hp. unfold PutFrame. rewrite Hp. cbn [Exec].
  pose proof (frameKey_ne_sessionKey s (SessionID f)) as Hne.
  set (fk := frameKey s (SessionID f)) in *.
  set (sk := sessionKey s) in *.
  assert (∃ l, RPush fk p (client s) = (<[fk := VList (l ++ [p])%list]> (client s), None)
               ∧ frame_list s (SessionID f) = l) as (l & -> & Hl).
  { unfold RPush, frame_list. fold fk.
    destruct (client s !! fk) as [[l|m]|] eqn:E.
    - by exists l.
    - by destruct (Hf (SessionID f) m).
    - by exists []. }
  assert (SAdd sk (SessionID f) (<[fk := VList (l ++ [p])%list]> (client s)) =
            (<[sk := VSet ({[SessionID f]} ∪ members s)]>
               (<[fk := VList (l ++ [p])%list]> (client s)), None)) as ->.
  { unfold SAdd, members. fold sk. rewrite lookup_insert_ne by done.
    destruct (client s !! sk) as [[l'|m]|] eqn:E.
    - by destruct (Hs l').
    - done.
    - by rewrite (right_id_L ∅ (∪)). }
  cbn [fst snd].
  set (db' := <[sk := _]> _).
  set (s' := mkRedis db' (prefix s)).
  assert (∀ sid, frameKey s' sid = frameKey s sid) as Hfk by done.
  assert (sessionKey s' = sk) as Hsk by done.
  assert (client s' = db') as Hc by done.
  assert (prefix s' = prefix s) as Hpre by done.
  clearbody s'. subst db'.
  split; [done|]. split; [done|].
  split; [split|split].
  - intros l'. by rewrite Hsk, Hc, lookup_insert_eq.
  - intros sid m. rewrite Hfk, Hc.
    rewrite lookup_insert_ne by (symmetry; apply frameKey_ne_sessionKey).
    rewrite lookup_insert. case_decide; [done|]. apply Hf.
  - unfold members. by rewrite Hsk, Hc, lookup_insert_eq.
  - intros sid. unfold frame_list. rewrite Hfk, Hc.
    rewrite lookup_insert_ne by (symmetry; apply frameKey_ne_sessionKey).
    rewrite lookup_insert. subst fk.
    case_decide as Hk.
    + apply frameKey_inj in Hk. subst sid. rewrite decide_True by done.
      by rewrite <- Hl.
    + rewrite decide_False; [done|]. by intros ->.
Qed.

(** *** [DeleteSession] *)

Lemma SIsMember_true key sid db :
  SIsMember key sid db = Reply true ↔
  ∃ m, db !! key = Some (VSet m) ∧ sid ∈ m.
Proof.
  unfold SIsMember. destruct (db !! key) as [[l|m]|]; split; try done.
  - by intros (? & ? & _).
  - intros [= Hm%bool_decide_eq_true]. eauto.
  - intros (m' & [= <-] & Hm). by rewrite bool_decide_eq_true_2.
  - by intros (? & ? & _).
Qed.

Lemma SIsMember_false key sid db :
  SIsMember key sid db = Reply false ↔
  db !! key = None ∨ ∃ m, db !! key = Some (VSet m) ∧ sid ∉ m.
Proof.
  unfold SIsMember. destruct (db !! key) as [[l|m]|]; split; try done; auto.
  - by intros [?|(? & ? & _)].
  - intros [= Hm%bool_decide_eq_false]. eauto.
  - intros [?|(m' & [= <-] & Hm)]; [done|]. by rewrite bool_decide_eq_false_2.
Qed.

(** Deleting a session that is a member of the active set: the list
    key is removed and the session leaves the set (the set key goes
    with its last member). *)
Lemma redis_DeleteSession_present s sid m :
  client s !! sessionKey s = Some (VSet m) → sid ∈ m →
  DeleteSession sid s =
    ({| client :=
          (if decide (m ∖ {[sid]} = ∅)
           then delete (sessionKey s) (delete (frameKey s sid) (client s))
           else <[sessionKey s := VSet (m ∖ {[sid]})]>
                  (delete (frameKey s sid) (client s)));
        prefix := prefix s |},
     None).
Proof.
  intros Hm Hsid. unfold DeleteSession.
  rewrite (proj2 (SIsMember_true _ _ _)) by eauto.
  cbn [Exec]. unfold Del, SRem.
  rewrite lookup_delete_ne by apply frameKey_ne_sessionKey.
  by rewrite Hm.
Qed.

Lemma redis_DeleteSession_absent s sid :
  SIsMember (sessionKey s) sid (client s) = Reply false →
  DeleteSession sid s = (s, Some (ErrSessionNotFound sid)).
Proof. intros E. unfold DeleteSession. by rewrite E. Qed.

Lemma redis_DeleteSession_spec s sid :
  well_typed s → sid ∈ members s →
  (DeleteSession sid s).2 = None ∧
  prefix (DeleteSession sid s).1 = prefix s ∧
  well_typed (DeleteSession sid s).1 ∧
  members (DeleteSession sid s).1 = members s ∖ {[sid]} ∧
  ∀ sid', frame_list (DeleteSession sid s).1 sid' =
            if decide (sid' = sid) then [] else frame_list s sid'.
Proof.
  intros [Hs Hf] Hsid. unfold members in Hsid.
  destruct (client s !! sessionKey s) as [[l|m]|] eqn:E;
    try by apply not_elem_of_empty in Hsid.
  rewrite (redis_DeleteSession_present s sid m) by done.
  cbn [fst snd].
  set (db' := if decide _ then _ else _).
  set (s' := mkRedis db' (prefix s)).
  assert (∀ sid, frameKey s' sid = frameKey s sid) as Hfk by done.
  assert (sessionKey s' = sessionKey s) as Hsk by done.
  assert (client s' = db') as Hc by done.
  assert (prefix s' = prefix s) as Hpre by done.
  clearbody s'.
  assert (db' !! sessionKey s =
            if decide (m ∖ {[sid]} = ∅) then None else Some (VSet (m ∖ {[sid]})))
    as Hdbs.
  { subst db'. destruct (decide (m ∖ {[sid]} = ∅));
      [by rewrite lookup_delete_eq | by rewrite lookup_insert_eq]. }
  assert (∀ sid', db' !! frameKey s sid' =
            if decide (sid' = sid) then None else client s !! frameKey s sid')
    as Hdbf.
  { intros sid'. subst db'.
    assert (delete (frameKey s sid) (client s) !! frameKey s sid' =
              if decide (sid' = sid) then None else client s !! frameKey s sid') as Hd.
    { destruct (decide (sid' = sid)) as [->|Hk]; [by rewrite lookup_delete_eq|].
      rewrite lookup_delete_ne; [done|].
      intros ?%frameKey_inj. by subst. }
    destruct (decide (m ∖ {[sid]} = ∅));
      [rewrite lookup_delete_ne | rewrite lookup_insert_ne];
      try (symmetry; apply frameKey_ne_sessionKey); done. }
  clearbody db'.
  split; [done|]. split; [done|]. split; [split|split].
  - intros l. rewrite Hsk, Hc, Hdbs. by destruct (decide (m ∖ {[sid]} = ∅)).
  - intros sid' m'. rewrite Hfk, Hc, Hdbf.
    destruct (decide (sid' = sid)); [done|apply Hf].
  - unfold members. rewrite Hsk, Hc, Hdbs, E.
    destruct (decide (m ∖ {[sid]} = ∅)) as [Hm|]; [|done]. by rewrite Hm.
  - intros sid'. unfold frame_list. rewrite Hfk, Hc, Hdbf.
    by destruct (decide (sid' = sid)).
Qed.

End redis_facts.

(** ** Overwriting a frame: the two backends *)

Section overwrite.
Context {payload : Type} `{!FrameCodec payload}.

Lemma redis_step_put f (s : Redis.RedisStorage payload) :
  redis_step (OpPutFrame f) s =
    ((Redis.PutFrame f s).1, ObsError (Redis.PutFrame f s).2).
Proof. simpl. by destruct (Redis.PutFrame f s). Qed.

Lemma redis_step_delete sid (s : Redis.RedisStorage payload) :
  redis_step (OpDeleteSession sid) s =
    ((Redis.DeleteSession sid s).1, ObsError (Redis.DeleteSession sid s).2).
Proof. simpl. by destruct (Redis.DeleteSession sid s). Qed.

Lemma redis_New_members p :
  Redis.members (Redis.NewRedisStorage p : Redis.RedisStorage payload) = ∅.
Proof. unfold Redis.members. simpl. by rewrite lookup_empty. Qed.

Lemma redis_New_frame_list p sid :
  Redis.frame_list (Redis.NewRedisStorage p : Redis.RedisStorage payload) sid = [].
Proof. unfold Redis.frame_list. simpl. by rewrite lookup_empty. Qed.

(** The Redis store after two puts under one session into a fresh
    database: the session is a member and its list holds both
    payloads, in the order of the puts. *)
Lemma redis_two_puts p f1 f2 p1 p2 :
  marshal f1 = Some p1 → marshal f2 = Some p2 →
  SessionID f1 = SessionID f2 →
  let s := (Redis.PutFrame f2 (Redis.PutFrame f1 (Redis.NewRedisStorage p)).1).1 in
  (Redis.PutFrame f1 (Redis.NewRedisStorage p)).2 = None ∧
  (Redis.PutFrame f2 (Redis.PutFrame f1 (Redis.NewRedisStorage p)).1).2 = None ∧
  Redis.well_typed s ∧
  SessionID f1 ∈ Redis.members s ∧
  Redis.frame_list s (SessionID f1) = [p1; p2].
Proof.
  intros H1 H2 Hsid.
  destruct (redis_PutFrame_spec f1 p1 (Redis.NewRedisStorage p)
              (redis_well_typed_New p) H1) as (E1 & _ & Hwt1 & Hm1 & Hl1).
  destruct (redis_PutFrame_spec f2 p2 _ Hwt1 H2) as (E2 & _ & Hwt2 & Hm2 & Hl2).
  cbv zeta. split; [done|]. split; [done|]. split; [done|]. split.
  - rewrite Hm2, Hm1. solve_elem.
  - rewrite Hl2, Hl1, redis_New_frame_list, Hsid.
    by rewrite !decide_True by done.
Qed.

Lemma redis_get_first p f1 f2 p1 p2 :
  marshal f1 = Some p1 → marshal f2 = Some p2 →
  SessionID f1 = SessionID f2 → Index f1 = Index f2 →
  Redis.GetFrame (SessionID f1) (Index f1)
    (Redis.PutFrame f2 (Redis.PutFrame f1 (Redis.NewRedisStorage p)).1).1 = Ok f1.
Proof.
  intros H1 H2 Hs Hi.
  destruct (redis_two_puts p f1 f2 p1 p2 H1 H2 Hs) as (_ & _ & Hwt & Hm & Hl).
  rewrite redis_GetFrame by done. rewrite decide_True by done.
  rewrite Hl. simpl. rewrite (unmarshal_marshal f1 p1 H1).
  by rewrite decide_True.
Qed.

Lemma mem_two_puts f1 f2 :
  SessionID f1 = SessionID f2 → Index f1 = Index f2 →
  Mem.frames (Mem.PutFrame f2 (Mem.PutFrame f1 Mem.NewMemoryStorage).1).1 =
    {[SessionID f2 := {[Index f2 := f2]}]}.
Proof.
  intros Hs Hi. rewrite !mem_PutFrame_frames, Hs, Hi.
  rewrite lookup_insert_eq. simpl. rewrite lookup_empty. simpl.
  by rewrite !insert_insert_eq.
Qed.

End overwrite.

(** C2 (fails on the Redis backend).  After two puts under one session
    and index into fresh stores, [GetFrame] of [MemoryStorage] returns
    the frame of the second put, as the claim says, and [GetFrame] of
    [RedisStorage] returns the frame of the first put: [PutFrame]
    appends to the session's list and the scan stops at the first entry
    with the index. *)
Theorem redis_get_returns_first_put {payload : Type} `{!FrameCodec payload}
    (p : string) (f1 f2 : Frame) (p1 p2 : payload) :
  marshal f1 = Some p1 → marshal f2 = Some p2 →
  SessionID f1 = SessionID f2 → Index f1 = Index f2 →
  Mem.GetFrame (SessionID f1) (Index f1)
    (Mem.PutFrame f2 (Mem.PutFrame f1 Mem.NewMemoryStorage).1).1 = Ok f2 ∧
  Redis.GetFrame (SessionID f1) (Index f1)
    (Redis.PutFrame f2 (Redis.PutFrame f1 (Redis.NewRedisStorage p)).1).1 = Ok f1.
Proof.
  intros H1 H2 Hs Hi. split; [by apply mem_put_put_get|].
  by apply (redis_get_first p f1 f2 p1 p2).
Qed.

Lemma redis_get_returns_first_put_witness :
  Mem.GetFrame "s" 0
    (Mem.PutFrame frame_s0_b (Mem.PutFrame frame_s0_a Mem.NewMemoryStorage).1).1
    = Ok frame_s0_b ∧
  Redis.GetFrame "s" 0
    (Redis.PutFrame frame_s0_b
       (Redis.PutFrame frame_s0_a (Redis.NewRedisStorage "relais:")).1).1
    = Ok frame_s0_a.
Proof.
  apply (redis_get_returns_first_put "relais:" frame_s0_a frame_s0_b
           frame_s0_a frame_s0_b); reflexivity.
Defined.

(** C3 (fails on the Redis backend).  After two puts under one session
    and index into fresh stores, [ListFrames] of [MemoryStorage] returns
    the one frame of the second put, as the claim says, and [ListFrames]
    of [RedisStorage] returns two frames for the one index, the frames
    of both puts. *)
Theorem redis_list_keeps_both_puts {payload : Type} `{!FrameCodec payload}
    (p : string) (f1 f2 : Frame) (p1 p2 : payload) :
  marshal f1 = Some p1 → marshal f2 = Some p2 →
  SessionID f1 = SessionID f2 → Index f1 = Index f2 →
  Mem.ListFrames (SessionID f1)
    (Mem.PutFrame f2 (Mem.PutFrame f1 Mem.NewMemoryStorage).1).1 = Ok [f2] ∧
  ∃ l, Redis.ListFrames (SessionID f1)
         (Redis.PutFrame f2 (Redis.PutFrame f1 (Redis.NewRedisStorage p)).1).1
         = Ok l ∧
       l ≡ₚ [f1; f2].
Proof.
  intros H1 H2 Hs Hi. split.
  - unfold Mem.ListFrames. rewrite mem_two_puts, Hs by done.
    rewrite lookup_singleton_eq. by rewrite map_to_list_singleton.
  - destruct (redis_two_puts p f1 f2 p1 p2 H1 H2 Hs) as (_ & _ & Hwt & Hm & Hl).
    rewrite redis_ListFrames by done. rewrite decide_True by done.
    rewrite Hl. simpl.
    rewrite (unmarshal_marshal f1 p1 H1), (unmarshal_marshal f2 p2 H2).
    eexists. split; [done|]. apply sort_frames_Permutation.
Qed.

Lemma redis_list_keeps_both_puts_witness :
  Mem.ListFrames "s"
    (Mem.PutFrame frame_s0_b (Mem.PutFrame frame_s0_a Mem.NewMemoryStorage).1).1
    = Ok [frame_s0_b] ∧
  ∃ l, Redis.ListFrames "s"
         (Redis.PutFrame frame_s0_b
            (Redis.PutFrame frame_s0_a (Redis.NewRedisStorage "relais:")).1).1
         = Ok l ∧
       l ≡ₚ [frame_s0_a; frame_s0_b].
Proof.
  apply (redis_list_keeps_both_puts "relais:" frame_s0_a frame_s0_b
           frame_s0_a frame_s0_b); reflexivity.
Defined.

(** C1 (fails).  The operation sequence put, put under the same session
    and index with another frame, get: the observations of the two
    backends differ in the frame the get returns. *)
Theorem backends_differ_on_overwrite {payload : Type} `{!FrameCodec payload}
    (p : string) (f1 f2 : Frame) (p1 p2 : payload) :
  marshal f1 = Some p1 → marshal f2 = Some p2 →
  SessionID f1 = SessionID f2 → Index f1 = Index f2 → f1 ≠ f2 →
  let ops := [OpPutFrame f1; OpPutFrame f2;
              OpGetFrame (SessionID f1) (Index f1)] in
  (run mem_step ops Mem.NewMemoryStorage).2 =
    [ObsError None; ObsError None; ObsFrame (Ok f2)] ∧
  (run redis_step ops (Redis.NewRedisStorage p)).2 =
    [ObsError None; ObsError None; ObsFrame (Ok f1)] ∧
  (run mem_step ops Mem.NewMemoryStorage).2 ≠
    (run redis_step ops (Redis.NewRedisStorage p)).2.
Proof.
  intros H1 H2 Hs Hi Hne. cbv zeta.
  assert ((run mem_step [OpPutFrame f1; OpPutFrame f2;
              OpGetFrame (SessionID f1) (Index f1)] Mem.NewMemoryStorage).2 =
          [ObsError None; ObsError None; ObsFrame (Ok f2)]) as Em.
  { cbn [run mem_step].
    change (Mem.PutFrame f1 Mem.NewMemoryStorage)
      with ((Mem.PutFrame f1 Mem.NewMemoryStorage).1, @None StorageError).
    cbn beta iota.
    change (Mem.PutFrame f2 (Mem.PutFrame f1 Mem.NewMemoryStorage).1)
      with ((Mem.PutFrame f2 (Mem.PutFrame f1 Mem.NewMemoryStorage).1).1,
            @None StorageError).
    cbn beta iota. cbn [snd].
    by rewrite mem_put_put_get. }
  assert ((run redis_step [OpPutFrame f1; OpPutFrame f2;
              OpGetFrame (SessionID f1) (Index f1)] (Redis.NewRedisStorage p)).2 =
          [ObsError None; ObsError None; ObsFrame (Ok f1)]) as Er.
  { destruct (redis_two_puts p f1 f2 p1 p2 H1 H2 Hs) as (E1 & E2 & _).
    pose proof (redis_get_first p f1 f2 p1 p2 H1 H2 Hs Hi) as Eg.
    cbn [run]. rewrite !redis_step_put. cbn beta iota. cbn [redis_step snd].
    by rewrite E1, E2, Eg. }
  split; [done|]. split; [done|].
  rewrite Em, Er. intros [= ?]. by apply Hne.
Qed.

Lemma backends_differ_on_overwrite_witness :
  let ops := [OpPutFrame frame_s0_a; OpPutFrame frame_s0_b; OpGetFrame "s" 0] in
  (run mem_step ops Mem.NewMemoryStorage).2 =
    [ObsError None; ObsError None; ObsFrame (Ok frame_s0_b)] ∧
  (run redis_step ops (Redis.NewRedisStorage "relais:")).2 =
    [ObsError None; ObsError None; ObsFrame (Ok frame_s0_a)] ∧
  (run mem_step ops Mem.NewMemoryStorage).2 ≠
    (run redis_step ops (Redis.NewRedisStorage "relais:")).2.
Proof.
  apply (backends_differ_on_overwrite "relais:" frame_s0_a frame_s0_b
           frame_s0_a frame_s0_b); try reflexivity.
  discriminate.
Defined.

(** ** Sessions of a store *)

Section sessions.
Context {payload : Type} `{!FrameCodec payload}.

Lemma mem_PutFrame_sessions_inv f s :
  Mem.inv s →
  Mem.sessions (Mem.PutFrame f s).1 = {[SessionID f]} ∪ Mem.sessions s.
Proof.
  intros Hinv. rewrite mem_PutFrame_sessions.
  destruct (Mem.frames s !! SessionID f) eqn:E; [|done].
  assert (SessionID f ∈ Mem.sessions s) by (apply Hinv; eauto).
  apply set_eq. intros x. rewrite elem_of_union, elem_of_singleton.
  split; [auto | by intros [->|?]].
Qed.

Lemma mem_run_puts_sessions fs s :
  Mem.inv s →
  Mem.sessions (run mem_step (put_ops fs) s).1 =
    list_to_set (SessionID <$> fs) ∪ Mem.sessions s.
Proof.
  rewrite (proj1 (mem_run_put_ops fs s)).
  revert s. induction fs as [|f fs IH]; intros s Hinv; cbn [foldl].
  - rewrite fmap_nil, list_to_set_nil. by rewrite (left_id_L ∅ (∪)).
  - rewrite IH by by apply mem_inv_PutFrame.
    rewrite mem_PutFrame_sessions_inv by done.
    rewrite fmap_cons, list_to_set_cons.
    apply set_eq. intros x. rewrite !elem_of_union. tauto.
Qed.

Lemma redis_run_puts fs (s : Redis.RedisStorage payload) :
  Redis.well_typed s → Forall (λ f, is_Some (marshal f)) fs →
  (run redis_step (put_ops fs) s).2 = replicate (length fs) (ObsError None) ∧
  Redis.well_typed (run redis_step (put_ops fs) s).1 ∧
  Redis.members (run redis_step (put_ops fs) s).1 =
    list_to_set (SessionID <$> fs) ∪ Redis.members s.
Proof.
  revert s. induction fs as [|f fs IH]; intros s Hwt Hfs.
  - simpl. split; [done|]. split; [done|].
    by rewrite (left_id_L ∅ (∪)).
  - apply Forall_cons in Hfs as [[pf Hpf] Hfs].
    destruct (redis_PutFrame_spec f pf s Hwt Hpf) as (E & _ & Hwt1 & Hm1 & _).
    change (put_ops (f :: fs)) with (OpPutFrame f :: put_ops fs).
    cbn [run]. rewrite redis_step_put. cbn beta iota.
    destruct (IH (Redis.PutFrame f s).1 Hwt1 Hfs) as (IH1 & IH2 & IH3).
    destruct (run redis_step (put_ops fs) (Redis.PutFrame f s).1) as [s2 os].
    simpl in *. split; [by rewrite E, IH1|]. split; [done|].
    rewrite IH3, Hm1. apply set_eq. intros x.
    rewrite !elem_of_union. tauto.
Qed.

End sessions.

(** C5.  After any sequence of puts into fresh stores (every frame
    marshals), every put succeeded and [ListSessions] returns the same
    list in both backends: strictly ascending in the bytewise order of
    [sort.Strings], with exactly the session IDs of the puts as its
    members; when the session IDs of the puts are pairwise distinct, the
    list has as many entries as there were puts. *)
Theorem list_sessions_after_puts {payload : Type} `{!FrameCodec payload}
    (p : string) (fs : list Frame) :
  Forall (λ f, is_Some (marshal f)) fs →
  ∃ l,
    (run mem_step (put_ops fs) Mem.NewMemoryStorage).2 =
      replicate (length fs) (ObsError None) ∧
    (run redis_step (put_ops fs) (Redis.NewRedisStorage p)).2 =
      replicate (length fs) (ObsError None) ∧
    Mem.ListSessions (run mem_step (put_ops fs) Mem.NewMemoryStorage).1 = Ok l ∧
    Redis.ListSessions (run redis_step (put_ops fs) (Redis.NewRedisStorage p)).1 = Ok l ∧
    StronglySorted GoSort.string_lt l ∧
    (∀ sid, sid ∈ l ↔ sid ∈ SessionID <$> fs) ∧
    (NoDup (SessionID <$> fs) → length l = length fs).
Proof.
  intros Hfs.
  exists (GoSort.Strings (elements (list_to_set (SessionID <$> fs) : gset string))).
  destruct (redis_run_puts fs (Redis.NewRedisStorage p) (redis_well_typed_New p) Hfs)
    as (Hr1 & Hr2 & Hr3).
  split; [apply mem_run_put_ops|]. split; [done|]. split; [|split; [|split; [|split]]].
  - unfold Mem.ListSessions.
    rewrite mem_run_puts_sessions by apply mem_inv_New.
    simpl. by rewrite (right_id_L ∅ (∪)).
  - rewrite redis_ListSessions by done.
    rewrite Hr3, redis_New_members. by rewrite (right_id_L ∅ (∪)).
  - apply Strings_elements_sorted.
  - intros sid. by rewrite Strings_elements_elem_of, elem_of_list_to_set.
  - intros Hnd. rewrite Strings_elements_length, size_list_to_set by done.
    by rewrite length_fmap.
Qed.

Lemma list_sessions_after_puts_witness :
  ∃ l,
    (run mem_step (put_ops [frame_s0_a; frame_a5; frame_s1]) Mem.NewMemoryStorage).2 =
      replicate 3 (ObsError None) ∧
    (run redis_step (put_ops [frame_s0_a; frame_a5; frame_s1])
       (Redis.NewRedisStorage "relais:")).2 =
      replicate 3 (ObsError None) ∧
    Mem.ListSessions
      (run mem_step (put_ops [frame_s0_a; frame_a5; frame_s1]) Mem.NewMemoryStorage).1
      = Ok l ∧
    Redis.ListSessions
      (run redis_step (put_ops [frame_s0_a; frame_a5; frame_s1])
         (Redis.NewRedisStorage "relais:")).1 = Ok l ∧
    StronglySorted GoSort.string_lt l ∧
    (∀ sid, sid ∈ l ↔ sid ∈ SessionID <$> [frame_s0_a; frame_a5; frame_s1]) ∧
    (NoDup (SessionID <$> [frame_s0_a; frame_a5; frame_s1]) → length l = 3%nat).
Proof.
  apply (list_sessions_after_puts "relais:" [frame_s0_a; frame_a5; frame_s1]).
  repeat constructor; by eexists.
Defined.

(** C6.  A session that [ListSessions] lists is present.  For a present
    session, in both backends: [DeleteSession] succeeds; afterwards
    [ListFrames] and [GetFrame] at every index report the session as not
    found, [ListSessions] no longer lists it, and a second
    [DeleteSession] reports the session as not found and leaves the
    store as it is. *)
Theorem delete_session_then_not_found {payload : Type} `{!FrameCodec payload}
    (sid : string) (ms : Mem.MemoryStorage) (rs : Redis.RedisStorage payload) :
  Mem.inv ms →
  (∃ l, Mem.ListSessions ms = Ok l ∧ sid ∈ l) →
  (∃ l, Redis.ListSessions rs = Ok l ∧ sid ∈ l) →
  (let ms' := (Mem.DeleteSession sid ms).1 in
   (Mem.DeleteSession sid ms).2 = None ∧
   Mem.ListFrames sid ms' = Err (ErrSessionNotFound sid) ∧
   (∀ i, Mem.GetFrame sid i ms' = Err (ErrSessionNotFound sid)) ∧
   (∃ l, Mem.ListSessions ms' = Ok l ∧ sid ∉ l) ∧
   Mem.DeleteSession sid ms' = (ms', Some (ErrSessionNotFound sid))) ∧
  (let rs' := (Redis.DeleteSession sid rs).1 in
   (Redis.DeleteSession sid rs).2 = None ∧
   Redis.ListFrames sid rs' = Err (ErrSessionNotFound sid) ∧
   (∀ i, Redis.GetFrame sid i rs' = Err (ErrSessionNotFound sid)) ∧
   (∃ l, Redis.ListSessions rs' = Ok l ∧ sid ∉ l) ∧
   Redis.DeleteSession sid rs' = (rs', Some (ErrSessionNotFound sid))).
Proof.
  intros Hinv (lm & [= <-] & Hm) (lr & Hlr & Hr). split.
  - apply Strings_elements_elem_of, Hinv in Hm as [M HM].
    assert (Mem.DeleteSession sid ms =
              ({| Mem.frames := delete sid (Mem.frames ms);
                  Mem.sessions := Mem.sessions ms ∖ {[sid]} |}, None)) as ->.
    { unfold Mem.DeleteSession. by rewrite HM. }
    cbn [fst snd].
    unfold Mem.ListFrames, Mem.GetFrame, Mem.DeleteSession, Mem.ListSessions.
    cbn [Mem.frames Mem.sessions]. rewrite lookup_delete_eq.
    repeat split; try done.
    eexists. split; [done|].
    rewrite Strings_elements_elem_of. solve_elem.
  - assert (∃ m, Redis.client rs !! Redis.sessionKey rs = Some (RedisServer.VSet m)
                 ∧ sid ∈ m) as (m & Hcm & Hsid).
    { unfold Redis.ListSessions, RedisServer.SMembers in Hlr.
      destruct (Redis.client rs !! Redis.sessionKey rs) as [[l|m]|]; [done| |].
      - injection Hlr as <-. exists m. split; [done|].
        by rewrite Strings_Permutation, elem_of_elements in Hr.
      - injection Hlr as <-. by apply elem_of_nil in Hr. }
    rewrite (redis_DeleteSession_present rs sid m Hcm Hsid). cbn [fst snd].
    set (rs' := Redis.mkRedis _ _).
    assert (Redis.client rs' !! Redis.sessionKey rs' = None ∨
            Redis.client rs' !! Redis.sessionKey rs' =
              Some (RedisServer.VSet (m ∖ {[sid]}))) as Hk.
    { subst rs'. cbn [Redis.client].
      change (Redis.sessionKey (Redis.mkRedis _ (Redis.prefix rs)))
        with (Redis.sessionKey rs).
      destruct (decide (m ∖ {[sid]} = ∅));
        [left; by rewrite lookup_delete_eq | right; by rewrite lookup_insert_eq]. }
    clearbody rs'.
    assert (RedisServer.SIsMember (Redis.sessionKey rs') sid (Redis.client rs')
              = RedisServer.Reply false) as Hno.
    { apply SIsMember_false. destruct Hk as [?|?]; [by left|right].
      eexists. split; [done|]. solve_elem. }
    split; [done|].
    unfold Redis.ListFrames, Redis.GetFrame. rewrite Hno.
    split; [done|]. split; [done|].
    split; [|by apply redis_DeleteSession_absent].
    unfold Redis.ListSessions, RedisServer.SMembers.
    destruct Hk as [->| ->]; eexists; (split; [done|]).
    + by intros ?%elem_of_nil.
    + rewrite Strings_elements_elem_of. solve_elem.
Qed.

Lemma delete_session_then_not_found_witness :
  let ms := (Mem.PutFrame frame_s0_a Mem.NewMemoryStorage).1 in
  let rs := (Redis.PutFrame frame_s0_a (Redis.NewRedisStorage "relais:")).1 in
  (let ms' := (Mem.DeleteSession "s" ms).1 in
   (Mem.DeleteSession "s" ms).2 = None ∧
   Mem.ListFrames "s" ms' = Err (ErrSessionNotFound "s") ∧
   (∀ i, Mem.GetFrame "s" i ms' = Err (ErrSessionNotFound "s")) ∧
   (∃ l, Mem.ListSessions ms' = Ok l ∧ "s" ∉ l) ∧
   Mem.DeleteSession "s" ms' = (ms', Some (ErrSessionNotFound "s"))) ∧
  (let rs' := (Redis.DeleteSession "s" rs).1 in
   (Redis.DeleteSession "s" rs).2 = None ∧
   Redis.ListFrames "s" rs' = Err (ErrSessionNotFound "s") ∧
   (∀ i, Redis.GetFrame "s" i rs' = Err (ErrSessionNotFound "s")) ∧
   (∃ l, Redis.ListSessions rs' = Ok l ∧ "s" ∉ l) ∧
   Redis.DeleteSession "s" rs' = (rs', Some (ErrSessionNotFound "s"))).
Proof.
  intros ms rs.
  apply (delete_session_then_not_found "s" ms rs).
  - apply mem_inv_PutFrame, mem_inv_New.
  - exists ["s"]. split; [reflexivity | apply list_elem_of_here].
  - exists ["s"]. split; [reflexivity | apply list_elem_of_here].
Defined.

(** C10.  In [MemoryStorage] the sessions set and the frames map have
    the same keys: in the store [NewMemoryStorage] returns, and after
    every operation on a store where it held. *)
Theorem mem_sessions_iff_frames :
  Mem.inv Mem.NewMemoryStorage ∧
  ∀ s, Mem.inv s →
    (∀ op, Mem.inv (mem_step op s).1) ∧
    Mem.inv (Mem.Close s).1.
Proof.
  split; [apply mem_inv_New|]. intros s Hinv. split; [|done].
  intros op. by apply mem_inv_step.
Qed.

Lemma mem_sessions_iff_frames_witness :
  Mem.inv Mem.NewMemoryStorage ∧
  (∀ op, Mem.inv (mem_step op Mem.NewMemoryStorage).1) ∧
  Mem.inv (Mem.Close Mem.NewMemoryStorage).1.
Proof.
  split; [exact (proj1 mem_sessions_iff_frames)|].
  exact (proj2 mem_sessions_iff_frames Mem.NewMemoryStorage
           (proj1 mem_sessions_iff_frames)).
Defined.

(** ** The two backends on sequences without overwrite *)

Section refinement.
Context {payload : Type} `{!FrameCodec payload}.

Implicit Types (ms : Mem.MemoryStorage) (rs : Redis.RedisStorage payload).

Lemma decode_frames_snoc (l : list payload) fs f p :
  Redis.decode_frames l = Ok fs → marshal f = Some p →
  Redis.decode_frames (l ++ [p])%list = Ok (fs ++ [f])%list.
Proof.
  intros Hl Hp. revert fs Hl. induction l as [|q l IH]; intros fs; simpl.
  - intros [= <-]. by rewrite (unmarshal_marshal f p Hp).
  - destruct (unmarshal q) as [g|]; [|done].
    destruct (Redis.decode_frames l) as [gs|] eqn:E; [|done].
    intros [= <-]. by rewrite (IH gs).
Qed.

(** The scan of [GetFrame] returns the first decoded frame with the
    index. *)
Lemma scan_frames_decoded sid i (l : list payload) fs :
  Redis.decode_frames l = Ok fs →
  Redis.scan_frames sid i l =
    match list_find (λ f, Index f = i) fs with
    | Some (_, f) => Ok f
    | None => Err (ErrFrameNotFound sid i)
    end.
Proof.
  revert fs. induction l as [|q l IH]; intros fs; simpl.
  - by intros [= <-].
  - destruct (unmarshal q) as [g|]; [|done].
    destruct (Redis.decode_frames l) as [gs|] eqn:E; [|done].
    intros [= <-]. cbn [list_find]. case_decide; [done|].
    rewrite (IH gs) by done. by destruct (list_find _ gs) as [[? ?]|].
Qed.

Lemma same_content_New p :
  same_content Mem.NewMemoryStorage (Redis.NewRedisStorage p).
Proof.
  split; [apply mem_inv_New|]. split; [apply redis_well_typed_New|].
  split; [apply redis_New_members|].
  intros sid. simpl. rewrite lookup_empty. apply redis_New_frame_list.
Qed.

Lemma same_content_present ms rs sid :
  same_content ms rs →
  sid ∈ Redis.members rs ↔ is_Some (Mem.frames ms !! sid).
Proof. intros (Hinv & _ & -> & _). apply Hinv. Qed.

Lemma same_content_GetFrame ms rs sid i :
  same_content ms rs → Mem.GetFrame sid i ms = Redis.GetFrame sid i rs.
Proof.
  intros Hsim. pose proof (same_content_present ms rs sid Hsim) as Hp.
  destruct Hsim as (Hinv & Hwt & Hm & Hc).
  rewrite redis_GetFrame by done. unfold Mem.GetFrame.
  specialize (Hc sid).
  destruct (Mem.frames ms !! sid) as [M|].
  - rewrite decide_True by (apply Hp; eauto).
    destruct Hc as (fs & Hdec & Hnd & HM).
    rewrite (scan_frames_decoded sid i _ fs Hdec).
    destruct (list_find (λ f, Index f = i) fs) as [[k g]|] eqn:Ef.
    + apply list_find_Some in Ef as (Hk & Hg & _).
      apply list_elem_of_lookup_2 in Hk.
      by rewrite (proj2 (HM i g)).
    + destruct (M !! i) as [f|] eqn:EM; [|done].
      apply HM in EM as [Hf Hi].
      rewrite list_find_None, Forall_forall in Ef. by destruct (Ef f Hf).
  - rewrite decide_False; [done|]. rewrite Hp. by intros [].
Qed.

Lemma same_content_ListFrames ms rs sid :
  same_content ms rs → Mem.ListFrames sid ms = Redis.ListFrames sid rs.
Proof.
  intros Hsim. pose proof (same_content_present ms rs sid Hsim) as Hp.
  destruct Hsim as (Hinv & Hwt & Hm & Hc).
  rewrite redis_ListFrames by done. unfold Mem.ListFrames.
  specialize (Hc sid).
  destruct (Mem.frames ms !! sid) as [M|].
  - rewrite decide_True by (apply Hp; eauto).
    destruct Hc as (fs & -> & Hnd & HM). f_equal.
    assert (Index <$> (snd <$> map_to_list M) = fst <$> map_to_list M) as Hidx.
    { rewrite <- list_fmap_compose. apply list_fmap_ext.
      intros k [i g] Hk%list_elem_of_lookup_2%elem_of_map_to_list. simpl.
      by apply HM in Hk as [_ ?]. }
    assert (NoDup (Index <$> (snd <$> map_to_list M))) as Hnd'.
    { rewrite Hidx. apply NoDup_fst_map_to_list. }
    apply sort_frames_order_irrelevant; [|done].
    apply NoDup_Permutation.
    + by apply NoDup_fmap_1 in Hnd'.
    + by apply NoDup_fmap_1 in Hnd.
    + intros f. rewrite list_elem_of_fmap. split.
      * intros [[i g] [-> Hg%elem_of_map_to_list]]. simpl. by apply HM in Hg as [? _].
      * intros Hf. exists (Index f, f). split; [done|].
        apply elem_of_map_to_list. by apply HM.
  - rewrite decide_False; [done|]. rewrite Hp. by intros [].
Qed.

Lemma same_content_ListSessions ms rs :
  same_content ms rs → Mem.ListSessions ms = Redis.ListSessions rs.
Proof.
  intros (Hinv & Hwt & Hm & Hc).
  rewrite redis_ListSessions by done. unfold Mem.ListSessions. by rewrite Hm.
Qed.

Lemma same_content_PutFrame ms rs f :
  same_content ms rs → is_Some (marshal f) →
  (Mem.frames ms !! SessionID f) ≫= (.!! Index f) = None →
  (Mem.PutFrame f ms).2 = (Redis.PutFrame f rs).2 ∧
  same_content (Mem.PutFrame f ms).1 (Redis.PutFrame f rs).1.
Proof.
  intros (Hinv & Hwt & Hm & Hc) [p Hp] Hfresh.
  destruct (redis_PutFrame_spec f p rs Hwt Hp) as (E & _ & Hwt' & Hm' & Hl').
  split; [by rewrite E|].
  split; [by apply mem_inv_PutFrame|]. split; [done|]. split.
  { by rewrite Hm', Hm, mem_PutFrame_sessions_inv. }
  intros sid. rewrite mem_PutFrame_frames, Hl', lookup_insert.
  specialize (Hc sid).
  destruct (decide (SessionID f = sid)) as [<-|Hne].
  - rewrite decide_True by done.
    assert (∃ fs, Redis.decode_frames (Redis.frame_list rs (SessionID f)) = Ok fs ∧
                  NoDup (Index <$> fs) ∧
                  ∀ i g, default ∅ (Mem.frames ms !! SessionID f) !! i = Some g
                         ↔ g ∈ fs ∧ Index g = i) as (fs & Hdec & Hnd & HM).
    { destruct (Mem.frames ms !! SessionID f) as [M|]; [done|].
      exists []. rewrite Hc. split; [done|]. split; [constructor|].
      intros i g. simpl. rewrite lookup_empty. split; [done|].
      by intros [?%elem_of_nil _]. }
    assert (default ∅ (Mem.frames ms !! SessionID f) !! Index f = None) as Hfresh'.
    { by destruct (Mem.frames ms !! SessionID f). }
    assert (∀ g, g ∈ fs → Index g ≠ Index f) as Hnotin.
    { intros g Hg Hi.
      assert (default ∅ (Mem.frames ms !! SessionID f) !! Index g = Some g) as Hg'
        by by apply HM.
      rewrite Hi in Hg'. congruence. }
    exists (fs ++ [f])%list. split; [by apply decode_frames_snoc|]. split.
    + rewrite fmap_app. apply NoDup_app. split; [done|]. split.
      * intros i [g [-> Hg]]%list_elem_of_fmap [Hi|[]%elem_of_nil]%elem_of_cons.
        by apply (Hnotin g).
      * apply NoDup_singleton.
    + intros i g. rewrite lookup_insert, elem_of_app, list_elem_of_singleton.
      destruct (decide (Index f = i)) as [<-|Hi].
      * split.
        -- intros [= ->]. auto.
        -- intros [[Hg| ->] Hgi]; [by destruct (Hnotin g Hg)|done].
      * rewrite HM. split.
        -- intros [? ?]. auto.
        -- intros [[Hg| ->] Hgi]; [done|by destruct Hi].
  - rewrite decide_False by congruence. done.
Qed.

Lemma same_content_DeleteSession ms rs sid :
  same_content ms rs →
  (Mem.DeleteSession sid ms).2 = (Redis.DeleteSession sid rs).2 ∧
  same_content (Mem.DeleteSession sid ms).1 (Redis.DeleteSession sid rs).1.
Proof.
  intros Hsim. pose proof (same_content_present ms rs sid Hsim) as Hp.
  pose proof Hsim as (Hinv & Hwt & Hm & Hc).
  destruct (Mem.frames ms !! sid) as [M|] eqn:EM.
  - assert (sid ∈ Redis.members rs) as Hsid by (apply Hp; eauto).
    destruct (redis_DeleteSession_spec rs sid Hwt Hsid) as (E & _ & Hwt' & Hm' & Hl').
    pose proof (mem_inv_DeleteSession sid ms Hinv) as Hinv'.
    unfold Mem.DeleteSession in *. rewrite EM in *. cbn [fst snd] in *.
    split; [by rewrite E|].
    split; [done|]. split; [done|]. split; [by rewrite Hm', Hm|].
    intros sid'. cbn [Mem.frames]. rewrite Hl', lookup_delete.
    destruct (decide (sid = sid')) as [<-|Hne].
    + by rewrite decide_True.
    + rewrite decide_False by congruence. apply Hc.
  - assert (sid ∉ Redis.members rs) as Hsid by (rewrite Hp; by intros []).
    rewrite redis_DeleteSession_absent.
    + unfold Mem.DeleteSession. by rewrite EM.
    + rewrite redis_SIsMember by done. by rewrite bool_decide_eq_false_2.
Qed.

Lemma same_content_step ms rs op :
  same_content ms rs →
  match op with
  | OpPutFrame f =>
      is_Some (marshal f) ∧
      (Mem.frames ms !! SessionID f) ≫= (.!! Index f) = None
  | _ => True
  end →
  (mem_step op ms).2 = (redis_step op rs).2 ∧
  same_content (mem_step op ms).1 (redis_step op rs).1.
Proof.
  intros Hsim Hop. destruct op as [f|sid i|sid| |sid].
  - destruct Hop as [Hp Hfresh].
    destruct (same_content_PutFrame ms rs f Hsim Hp Hfresh) as [E Hsim'].
    rewrite redis_step_put. cbn [mem_step].
    destruct (Mem.PutFrame f ms) as [ms' e]. simpl in *. by rewrite E.
  - simpl. by rewrite (same_content_GetFrame ms rs).
  - simpl. by rewrite (same_content_ListFrames ms rs).
  - simpl. by rewrite (same_content_ListSessions ms rs).
  - destruct (same_content_DeleteSession ms rs sid Hsim) as [E Hsim'].
    rewrite redis_step_delete. cbn [mem_step].
    destruct (Mem.DeleteSession sid ms) as [ms' e]. simpl in *. by rewrite E.
Qed.

(** On operation sequences in which no put hits a stored session and
    index, stores with the same content return the same results. *)
Lemma same_content_run ops ms rs :
  same_content ms rs → all_marshal ops → no_overwrite ops ms →
  (run mem_step ops ms).2 = (run redis_step ops rs).2.
Proof.
  revert ms rs. induction ops as [|op ops IH]; intros ms rs Hsim Hmar Hno; [done|].
  apply Forall_cons in Hmar as [Hop Hmar]. destruct Hno as [Hfresh Hno].
  destruct (same_content_step ms rs op Hsim) as [E Hsim'].
  { destruct op; [split|..]; done. }
  specialize (IH _ _ Hsim' Hmar Hno). cbn [run].
  destruct (mem_step op ms) as [ms1 o1], (redis_step op rs) as [rs1 o2].
  cbn [fst snd] in *.
  destruct (run mem_step ops ms1) as [ms2 os1], (run redis_step ops rs1) as [rs2 os2].
  cbn [fst snd] in *. by subst.
Qed.

(** X27.  From fresh stores, the two backends return the same results on
    every operation sequence in which no put hits a stored session and
    index (and every frame put marshals): the overwriting put is the only
    operation on which they differ. *)
Lemma backends_agree_without_overwrite p ops :
  all_marshal ops → no_overwrite ops Mem.NewMemoryStorage →
  (run mem_step ops Mem.NewMemoryStorage).2 =
    (run redis_step ops (Redis.NewRedisStorage p)).2.
Proof. apply same_content_run, same_content_New. Qed.

End refinement.

(** ** [SessionManager] *)

Section session_facts.
Import Session.
Context {metadata : Type}.

Implicit Types (sm : SessionManager metadata) (acc : gmap string (SessionInfo metadata)).

(** The ID is a function of the clock reading truncated to the
    second. *)
Lemma generateSessionID_same_second zone t1 t2 :
  unix_nano t1 `div` GoTime.Second = unix_nano t2 `div` GoTime.Second →
  generateSessionID zone t1 = generateSessionID zone t2.
Proof.
  intros E. unfold generateSessionID, GoTime.Format_20060102150405.
  by rewrite E.
Qed.

(** [Sub] is the difference of the monotonic readings when that fits
    a [Duration]. *)
Lemma Sub_mono_exact t u mt mu :
  mono t = Some mt → mono u = Some mu →
  GoTime.minDuration <= mt - mu <= GoTime.maxDuration →
  GoTime.Sub t u = mt - mu.
Proof.
  intros Ht Hu H. unfold GoTime.Sub, GoTime.subMono. rewrite Ht, Hu.
  unfold GoTime.minDuration, GoTime.maxDuration in *.
  assert (GoTime.wrap64 (mt - mu) = mt - mu) as ->.
  { unfold GoTime.wrap64. rewrite Z.mod_small; lia. }
  repeat case_decide; lia.
Qed.

Lemma cleanup_fold_None now maxAge l acc id :
  acc !! id = None →
  foldl (cleanup_entry now maxAge) acc l !! id = None.
Proof.
  revert acc. induction l as [|[k s] l IH]; intros acc Hacc; simpl; [done|].
  apply IH. unfold cleanup_entry. simpl.
  case_decide; [|done]. rewrite lookup_delete. by case_decide.
Qed.

Lemma cleanup_fold_kept now maxAge l acc id :
  (∀ s, (id, s) ∈ l → ¬ GoTime.Sub now (CreatedAt s) > maxAge) →
  foldl (cleanup_entry now maxAge) acc l !! id = acc !! id.
Proof.
  revert acc. induction l as [|[k s] l IH]; intros acc Hl; simpl; [done|].
  rewrite IH by (intros s' Hs'; apply Hl; by apply list_elem_of_further).
  unfold cleanup_entry. simpl. case_decide as Hexp; [|done].
  rewrite lookup_delete_ne; [done|].
  intros ->. apply (Hl s); [apply list_elem_of_here | done].
Qed.

Lemma cleanup_fold_evicted now maxAge l acc id s :
  (id, s) ∈ l → GoTime.Sub now (CreatedAt s) > maxAge →
  foldl (cleanup_entry now maxAge) acc l !! id = None.
Proof.
  revert acc. induction l as [|[k s'] l IH]; intros acc Hin Hexp; simpl.
  - by apply elem_of_nil in Hin.
  - apply elem_of_cons in Hin as [[= <- <-]|Hin]; [|by apply IH].
    apply cleanup_fold_None. unfold cleanup_entry. simpl.
    rewrite decide_True by done. apply lookup_delete_eq.
Qed.

End session_facts.

(** C4 (fails).  Two calls of [CreateSession] whose ID clock readings
    fall in the same second return the same ID, and the second session
    replaces the first in the manager. *)
Theorem create_session_same_second_same_id {metadata : Type}
    (zone : Z) (t1 t1' t2 t2' : Time) (ty1 ty2 : string) (md1 md2 : metadata)
    (sm : Session.SessionManager metadata) :
  unix_nano t1 `div` GoTime.Second = unix_nano t2 `div` GoTime.Second →
  let r1 := Session.CreateSession zone t1 t1' ty1 md1 sm in
  let r2 := Session.CreateSession zone t2 t2' ty2 md2 r1.1 in
  Session.ID r1.2 = Session.ID r2.2 ∧
  Session.GetSession (Session.ID r1.2) r2.1 = Some r2.2.
Proof.
  intros E. cbv zeta. unfold Session.CreateSession, Session.GetSession. simpl.
  rewrite (generateSessionID_same_second zone t1 t2 E).
  split; [done|]. apply lookup_insert_eq.
Qed.

Lemma create_session_same_second_same_id_witness :
  let r1 := Session.CreateSession 0 now_a now_a "webrtc" tt Session.NewSessionManager in
  let r2 := Session.CreateSession 0 now_b now_b "rtsp" tt r1.1 in
  Session.ID r1.2 = Session.ID r2.2 ∧
  Session.GetSession (Session.ID r1.2) r2.1 = Some r2.2.
Proof.
  apply (create_session_same_second_same_id 0 now_a now_a now_b now_b
           "webrtc" "rtsp" tt tt Session.NewSessionManager).
  reflexivity.
Defined.

(** C9.  One eviction scan, also as the one tick of the cleanup worker:
    a session whose age [now.Sub(CreatedAt)] exceeds [maxAge] is absent
    afterwards, every other session is present with the same
    [SessionInfo], and no session appears. *)
Theorem cleanup_evicts_exactly_expired {metadata : Type}
    (now : Time) (maxAge : Z) (sm : Session.SessionManager metadata)
    (id : string) :
  Session.StartCleanupWorker [Session.TickerC now] maxAge sm =
    Session.cleanupExpiredSessions now maxAge sm ∧
  Session.GetSession id (Session.cleanupExpiredSessions now maxAge sm) =
    match Session.GetSession id sm with
    | Some session =>
        if decide (GoTime.Sub now (Session.CreatedAt session) > maxAge)
        then None else Some session
    | None => None
    end.
Proof.
  split; [done|]. unfold Session.GetSession, Session.cleanupExpiredSessions.
  cbn [Session.sessions].
  destruct (Session.sessions sm !! id) as [session|] eqn:E.
  - case_decide as Hexp.
    + apply (cleanup_fold_evicted now maxAge _ _ id session); [|done].
      by apply elem_of_map_to_list.
    + rewrite cleanup_fold_kept; [done|].
      intros s' Hs'%elem_of_map_to_list. by simplify_eq.
  - by apply cleanup_fold_None.
Qed.

(** ** [Registry] and [PluginManager] *)

Section plugin_facts.
Import Plugins.
Context {config : Type}.

Implicit Types (r : Registry config) (pm : PluginManager config)
  (factory : PluginFactory config).

Lemma Create_lookup_factory pType name r :
  Create pType name r =
    match lookup_factory r pType name with
    | Some factory => Ok (factory ())
    | None => Err (ErrNotFound pType name)
    end.
Proof.
  unfold Create, lookup_factory.
  destruct (plugins r !! pType) as [factories|]; simpl; [|done].
  by destruct (factories !! name).
Qed.

(** Registering a registered pair: an error, and the registry is as it
    was. *)
Lemma Register_registered pType name factory r g :
  lookup_factory r pType name = Some g →
  Register pType name factory r = (r, Some (ErrAlreadyRegistered name)).
Proof.
  unfold lookup_factory, Register. intros H.
  destruct (plugins r !! pType) as [factories|] eqn:E; [|done].
  rewrite E. simpl in *. by rewrite H.
Qed.

(** Registering a pair that is not registered: no error, the pair maps
    to the factory and every other pair is as it was. *)
Lemma Register_fresh pType name factory r :
  lookup_factory r pType name = None →
  (Register pType name factory r).2 = None ∧
  ∀ pType' name',
    lookup_factory (Register pType name factory r).1 pType' name' =
      if decide (pType = pType' ∧ name = name') then Some factory
      else lookup_factory r pType' name'.
Proof.
  unfold lookup_factory, Register. intros H.
  destruct (plugins r !! pType) as [factories|] eqn:E.
  - rewrite E. simpl in H. simpl. rewrite H. split; [done|].
    intros pType' name'. cbn [fst plugins].
    destruct (decide (pType = pType')) as [<-|Hp].
    + rewrite lookup_alter_eq, E. simpl.
      destruct (decide (name = name')) as [<-|Hn].
      * rewrite lookup_insert_eq. by rewrite decide_True.
      * rewrite lookup_insert_ne by done. by rewrite decide_False by tauto.
    + rewrite lookup_alter_ne by done. by rewrite decide_False by tauto.
  - cbn [plugins]. rewrite lookup_insert_eq. simpl. rewrite lookup_empty.
    split; [done|]. intros pType' name'. cbn [fst plugins].
    destruct (decide (pType = pType')) as [<-|Hp].
    + rewrite lookup_alter_eq, lookup_insert_eq. simpl.
      destruct (decide (name = name')) as [<-|Hn].
      * rewrite lookup_insert_eq. by rewrite decide_True.
      * rewrite lookup_insert_ne by done. rewrite decide_False by tauto.
        by rewrite lookup_empty, E.
    + rewrite lookup_alter_ne, lookup_insert_ne by done.
      by rewrite decide_False by tauto.
Qed.

(** A registered pair keeps its factory through any [Register] call. *)
Lemma Register_keeps pType name g pType' name' factory r :
  lookup_factory r pType name = Some g →
  lookup_factory (Register pType' name' factory r).1 pType name = Some g.
Proof.
  intros H.
  destruct (lookup_factory r pType' name') as [g'|] eqn:E.
  - by rewrite (Register_registered _ _ _ _ g').
  - destruct (Register_fresh pType' name' factory r E) as [_ ->].
    case_decide as Hd; [|done]. destruct Hd as [-> ->]. congruence.
Qed.

Lemma run_register_cons pType name factory calls r :
  run_register ((pType, name, factory) :: calls) r =
    ((run_register calls (Register pType name factory r).1).1,
     (Register pType name factory r).2 ::
       (run_register calls (Register pType name factory r).1).2).
Proof.
  cbn [run_register]. destruct (Register pType name factory r) as [r1 e].
  cbn [fst snd]. by destruct (run_register calls r1).
Qed.

Lemma run_register_registered pType name g calls r :
  lookup_factory r pType name = Some g →
  lookup_factory (run_register calls r).1 pType name = Some g ∧
  ∀ i factory,
    calls !! i = Some (pType, name, factory) →
    (run_register calls r).2 !! i = Some (Some (ErrAlreadyRegistered name)).
Proof.
  revert r. induction calls as [|[[k n] h] calls IH]; intros r H.
  - split; [done|]. intros i factory. by rewrite lookup_nil.
  - rewrite run_register_cons. cbn [fst snd].
    destruct (IH (Register k n h r).1) as [IH1 IH2];
      [by apply Register_keeps|].
    split; [done|]. intros [|i] factory; simpl; [|by apply IH2].
    intros [= -> -> ->]. by rewrite (Register_registered _ _ _ _ g).
Qed.

Lemma run_register_unregistered pType name calls r :
  lookup_factory r pType name = None →
  (∀ k n h, (k, n, h) ∈ calls → ¬ (k = pType ∧ n = name)) →
  lookup_factory (run_register calls r).1 pType name = None.
Proof.
  revert r. induction calls as [|[[k n] h] calls IH]; intros r H Hcalls; [done|].
  rewrite run_register_cons. cbn [fst].
  apply IH; [|intros k' n' h' Hin; apply (Hcalls k' n' h'); by apply list_elem_of_further].
  destruct (lookup_factory r k n) as [g|] eqn:E.
  - by rewrite (Register_registered _ _ _ _ g).
  - destruct (Register_fresh k n h r E) as [_ ->].
    rewrite decide_False; [done|].
    apply (Hcalls k n h), list_elem_of_here.
Qed.

End plugin_facts.

(** C8.  A [Register] of a pair that is not registered succeeds; after
    it, through any further [Register] calls, every call for the pair
    returns the already-registered error and the pair keeps the factory
    of the first call, which is what [Create] instantiates.  In a
    registry built from [NewRegistry] by calls none of which is for the
    pair, [Create] returns the not-found error. *)
Theorem registry_write_once {config : Type}
    (r : Plugins.Registry config) (pType : Plugins.PluginType) (name : string)
    (factory : Plugins.PluginFactory config)
    (calls : list (Plugins.PluginType * string * Plugins.PluginFactory config)) :
  (Plugins.lookup_factory r pType name = None →
   let r1 := (Plugins.Register pType name factory r).1 in
   (Plugins.Register pType name factory r).2 = None ∧
   Plugins.lookup_factory (Plugins.run_register calls r1).1 pType name
     = Some factory ∧
   Plugins.Create pType name (Plugins.run_register calls r1).1
     = Ok (factory ()) ∧
   ∀ i g, calls !! i = Some (pType, name, g) →
          (Plugins.run_register calls r1).2 !! i
            = Some (Some (Plugins.ErrAlreadyRegistered name))) ∧
  ((∀ k n h, (k, n, h) ∈ calls → ¬ (k = pType ∧ n = name)) →
   Plugins.Create pType name (Plugins.run_register calls Plugins.NewRegistry).1
     = Err (Plugins.ErrNotFound pType name)).
Proof.
  split.
  - intros Hfresh. cbv zeta.
    destruct (Register_fresh pType name factory r Hfresh) as [E Hl].
    assert (Plugins.lookup_factory (Plugins.Register pType name factory r).1
              pType name = Some factory) as H1.
    { rewrite Hl. by rewrite decide_True. }
    destruct (run_register_registered pType name factory calls _ H1) as [H2 H3].
    split; [done|]. split; [done|]. split; [|done].
    by rewrite Create_lookup_factory, H2.
  - intros Hcalls. rewrite Create_lookup_factory.
    by rewrite run_register_unregistered.
Qed.

Lemma registry_write_once_witness :
  let camera := λ _ : unit, plugin_ok in
  let other := λ _ : unit, plugin_failing in
  let calls := [("ingress", "rtsp", other); ("ingress", "camera", other)] in
  let r1 := (Plugins.Register "ingress" "camera" camera Plugins.NewRegistry).1 in
  ((Plugins.Register "ingress" "camera" camera Plugins.NewRegistry).2 = None ∧
   Plugins.lookup_factory (Plugins.run_register calls r1).1 "ingress" "camera"
     = Some camera ∧
   Plugins.Create "ingress" "camera" (Plugins.run_register calls r1).1
     = Ok (camera ()) ∧
   ∀ i g, calls !! i = Some ("ingress", "camera", g) →
          (Plugins.run_register calls r1).2 !! i
            = Some (Some (Plugins.ErrAlreadyRegistered "camera"))) ∧
  Plugins.Create "egress" "nonexistent"
    (Plugins.run_register calls Plugins.NewRegistry).1
    = Err (Plugins.ErrNotFound "egress" "nonexistent").
Proof.
  intros camera other calls r1. split.
  - apply (proj1 (registry_write_once Plugins.NewRegistry "ingress" "camera"
                    camera calls)).
    reflexivity.
  - apply (proj2 (registry_write_once Plugins.NewRegistry "egress" "nonexistent"
                    camera calls)).
    intros k n h Hin [-> ->].
    repeat (apply elem_of_cons in Hin as [Hin|Hin]; [discriminate Hin|]).
    by apply elem_of_nil in Hin.
Defined.

(** C7.  When the registry creates an instance for the kind and name:
    if its [Initialize] fails, [StartPlugin] returns an error and the
    manager, its status map included, is as it was, so a name without a
    status entry still has none; if its [Initialize] succeeds,
    [StartPlugin] returns no error and the status of the name is
    running, started at the time of the call, without an error. *)
Theorem start_plugin_status {config : Type}
    (now : Time) (pType : Plugins.PluginType) (name : string) (cfg : config)
    (pm : Plugins.PluginManager config) (plugin : Plugins.Plugin config) :
  Plugins.Create pType name (Plugins.registry pm) = Ok plugin →
  (∀ err, Plugins.Initialize plugin cfg = Some err →
     Plugins.StartPlugin now pType name cfg pm
       = (pm, Some (Plugins.ErrInitialize err)) ∧
     (Plugins.GetPluginStatus name pm = Err (Plugins.ErrStatusNotFound name) →
      Plugins.GetPluginStatus name (Plugins.StartPlugin now pType name cfg pm).1
        = Err (Plugins.ErrStatusNotFound name))) ∧
  (Plugins.Initialize plugin cfg = None →
     (Plugins.StartPlugin now pType name cfg pm).2 = None ∧
     Plugins.GetPluginStatus name (Plugins.StartPlugin now pType name cfg pm).1
       = Ok {| Plugins.Running := true;
               Plugins.StartTime := now;
               Plugins.Error := None |}).
Proof.
  intros Hc. unfold Plugins.StartPlugin. rewrite Hc. split.
  - intros err ->. split; [done|]. by intros.
  - intros ->. split; [done|].
    unfold Plugins.GetPluginStatus. cbn [fst Plugins.status].
    by rewrite lookup_insert_eq.
Qed.

Lemma start_plugin_status_witness :
  let r :=
    (Plugins.run_register
       [("ingress", "camera", λ _ : unit, plugin_ok);
        ("ingress", "broken", λ _ : unit, plugin_failing)]
       Plugins.NewRegistry).1 in
  let pm := Plugins.NewPluginManager r in
  (Plugins.StartPlugin now_a "ingress" "broken" tt pm
     = (pm, Some (Plugins.ErrInitialize (Plugins.ErrPlugin "no device"))) ∧
   Plugins.GetPluginStatus "broken"
     (Plugins.StartPlugin now_a "ingress" "broken" tt pm).1
     = Err (Plugins.ErrStatusNotFound "broken")) ∧
  ((Plugins.StartPlugin now_a "ingress" "camera" tt pm).2 = None ∧
   Plugins.GetPluginStatus "camera"
     (Plugins.StartPlugin now_a "ingress" "camera" tt pm).1
     = Ok {| Plugins.Running := true;
             Plugins.StartTime := now_a;
             Plugins.Error := None |}).
Proof.
  intros r pm. split.
  - destruct (proj1 (start_plugin_status now_a "ingress" "broken" tt pm
                       plugin_failing eq_refl)
                (Plugins.ErrPlugin "no device") eq_refl) as [H1 H2].
    split; [exact H1 | exact (H2 eq_refl)].
  - exact (proj2 (start_plugin_status now_a "ingress" "camera" tt pm
                    plugin_ok eq_refl) eq_refl).
Defined.

(** * Further properties *)

(** ** [MemoryStorage]: reads after writes *)

(** X1.  After any sequence of puts into the empty memory store,
    [GetFrame] returns the frame of the last put under the session and
    index; when there is none it reports the frame as not found if the
    session was put to, and the session as not found otherwise. *)
Theorem mem_GetFrame_puts (fs : list Frame) (sid : string) (i : Z) :
  Mem.GetFrame sid i (run mem_step (put_ops fs) Mem.NewMemoryStorage).1 =
    match latest_put sid i fs with
    | Some f => Ok f
    | None =>
        if decide (sid ∈ SessionID <$> fs) then Err (ErrFrameNotFound sid i)
        else Err (ErrSessionNotFound sid)
    end.
Proof.
  rewrite (proj1 (mem_run_put_ops fs _)).
  pose proof (mem_puts_lookup fs Mem.NewMemoryStorage sid i) as Hl.
  pose proof (mem_puts_session fs Mem.NewMemoryStorage sid) as Hs.
  unfold Mem.GetFrame.
  destruct (Mem.frames (foldl _ _ fs) !! sid) as [M|]; simpl in Hl.
  - rewrite Hl. destruct (latest_put sid i fs); [done|].
    simpl. rewrite lookup_empty. simpl.
    rewrite decide_True; [done|].
    destruct (proj1 Hs) as [[? H]|?]; [eauto| |done].
    simpl in H. by rewrite lookup_empty in H.
  - destruct (latest_put sid i fs) as [f|]; [done|].
    rewrite decide_False; [done|].
    intros Hin. destruct (proj2 Hs) as [? ?]; [auto|done].
Qed.

Section mem_reachable.
Import Mem.

Lemma mem_keyed_New : mem_keyed NewMemoryStorage.
Proof. intros sid M. simpl. by rewrite lookup_empty. Qed.

Lemma mem_keyed_PutFrame f s : mem_keyed s → mem_keyed (PutFrame f s).1.
Proof.
  intros Hk sid M. rewrite mem_PutFrame_frames, lookup_insert.
  case_decide as Hs; [|apply Hk]. subst sid. intros [= <-]. split.
  - apply insert_non_empty.
  - intros i g. rewrite lookup_insert. case_decide; [by intros [= <-]|].
    destruct (frames s !! SessionID f) as [M0|] eqn:E; simpl.
    + apply (Hk _ _ E).
    + by rewrite lookup_empty.
Qed.

Lemma mem_keyed_DeleteSession sid s :
  mem_keyed s → mem_keyed (DeleteSession sid s).1.
Proof.
  intros Hk sid' M. unfold DeleteSession.
  destruct (frames s !! sid) eqn:E; simpl; [|apply Hk].
  rewrite lookup_delete. case_decide; [done|apply Hk].
Qed.

Lemma mem_keyed_step op s : mem_keyed s → mem_keyed (mem_step op s).1.
Proof.
  intros Hk. destruct op as [f|sid i|sid| |sid]; simpl; try done.
  - by apply mem_keyed_PutFrame.
  - pose proof (mem_keyed_DeleteSession sid s Hk).
    by destruct (DeleteSession sid s).
Qed.

Lemma mem_keyed_run ops s : mem_keyed s → mem_keyed (run mem_step ops s).1.
Proof.
  revert s. induction ops as [|op ops IH]; intros s Hk; simpl; [done|].
  pose proof (mem_keyed_step op s Hk) as H1.
  destruct (mem_step op s) as [s1 o]. simpl in H1.
  specialize (IH s1 H1). by destruct (run mem_step ops s1).
Qed.

(** What [ListFrames] returns for a session of a store with the keys in
    order. *)
Lemma mem_ListFrames_keyed s sid l :
  mem_keyed s → ListFrames sid s = Ok l →
  l ≠ [] ∧
  StronglySorted index_lt l ∧
  ∀ f, f ∈ l ↔ GetFrame sid (Index f) s = Ok f.
Proof.
  intros Hk. unfold ListFrames, GetFrame.
  destruct (frames s !! sid) as [M|] eqn:E; [|done].
  destruct (Hk sid M E) as [Hne HM]. intros [= <-].
  assert (∀ f, f ∈ snd <$> map_to_list M ↔ M !! Index f = Some f) as Hel.
  { intros f. rewrite list_elem_of_fmap. split.
    - intros [[i g] [-> Hg%elem_of_map_to_list]]. simpl.
      by destruct (HM i g Hg) as [_ ->].
    - intros Hf. exists (Index f, f). split; [done|].
      by apply elem_of_map_to_list. }
  split; [|split].
  - intros Hnil. apply Hne, map_to_list_empty_iff.
    apply (f_equal length) in Hnil.
    rewrite sort_frames_Permutation, length_fmap in Hnil.
    by apply nil_length_inv.
  - apply StronglySorted_index_le_NoDup_lt; [apply sort_frames_StronglySorted|].
    rewrite sort_frames_Permutation.
    replace (Index <$> (snd <$> map_to_list M)) with (fst <$> map_to_list M).
    { apply NoDup_fst_map_to_list. }
    rewrite <- list_fmap_compose. apply list_fmap_ext.
    intros k [i g] Hg%list_elem_of_lookup_2%elem_of_map_to_list. simpl.
    by destruct (HM i g Hg) as [_ ->].
  - intros f. rewrite sort_frames_Permutation, Hel.
    destruct (M !! Index f) as [g|]; [|done].
    split; [by intros [= ->] | by intros [= ->]].
Qed.

End mem_reachable.

(** X2.  In every memory store reached from the empty one by puts, gets,
    lists and deletes, a successful [ListFrames] returns a non-empty
    list, strictly ascending by index, whose frames are exactly the
    frames [GetFrame] returns for the session, each stored under its own
    session ID. *)
Theorem mem_ListFrames_reachable (ops : list Op) (sid : string) (l : list Frame) :
  Mem.ListFrames sid (run mem_step ops Mem.NewMemoryStorage).1 = Ok l →
  l ≠ [] ∧
  StronglySorted index_lt l ∧
  (∀ f, f ∈ l ↔
        Mem.GetFrame sid (Index f) (run mem_step ops Mem.NewMemoryStorage).1 = Ok f) ∧
  Forall (λ f, SessionID f = sid) l.
Proof.
  intros Hl.
  pose proof (mem_keyed_run ops _ mem_keyed_New) as Hk.
  destruct (mem_ListFrames_keyed _ sid l Hk Hl) as (H1 & H2 & H3).
  split; [done|]. split; [done|]. split; [done|].
  apply Forall_forall. intros f Hf%H3. unfold Mem.GetFrame in Hf.
  destruct (Mem.frames _ !! sid) as [M|] eqn:E; [|done].
  destruct (M !! Index f) as [g|] eqn:Eg; [|done].
  injection Hf as ->. by destruct (proj2 (Hk sid M E) _ _ Eg).
Qed.

Lemma mem_ListFrames_reachable_witness :
  let ops := [OpPutFrame frame_s1; OpPutFrame frame_a5; OpPutFrame frame_s0_a;
              OpDeleteSession "a"; OpPutFrame frame_s0_b] in
  [frame_s0_b; frame_s1] ≠ [] ∧
  StronglySorted index_lt [frame_s0_b; frame_s1] ∧
  (∀ f, f ∈ [frame_s0_b; frame_s1] ↔
        Mem.GetFrame "s" (Index f) (run mem_step ops Mem.NewMemoryStorage).1 = Ok f) ∧
  Forall (λ f, SessionID f = "s") [frame_s0_b; frame_s1].
Proof.
  apply (mem_ListFrames_reachable
           [OpPutFrame frame_s1; OpPutFrame frame_a5; OpPutFrame frame_s0_a;
            OpDeleteSession "a"; OpPutFrame frame_s0_b] "s").
  reflexivity.
Defined.

(** X3.  In every memory store reached from the empty one, [ListSessions]
    lists a session exactly when [ListFrames] succeeds on it. *)
Theorem mem_listed_iff_listable (ops : list Op) (sid : string) :
  ∃ l, Mem.ListSessions (run mem_step ops Mem.NewMemoryStorage).1 = Ok l ∧
       (sid ∈ l ↔
        ∃ fl, Mem.ListFrames sid (run mem_step ops Mem.NewMemoryStorage).1 = Ok fl).
Proof.
  pose proof (mem_inv_run ops _ mem_inv_New) as Hinv.
  eexists. split; [done|].
  rewrite Strings_elements_elem_of, (Hinv sid). unfold Mem.ListFrames.
  destruct (Mem.frames _ !! sid); split.
  - eauto.
  - eauto.
  - by intros [].
  - by intros [? ?].
Qed.

(** ** [RedisStorage]: the store as an append-only log *)

Section redis_log.
Context {payload : Type} `{!FrameCodec payload}.

Implicit Types (rs : Redis.RedisStorage payload).

(** The list of a session after a sequence of puts: what it held, then
    the frames put to the session, in the order of the puts. *)
Lemma redis_puts_frame_list fs rs sid fs0 :
  Redis.well_typed rs → Forall (λ f, is_Some (marshal f)) fs →
  Redis.decode_frames (Redis.frame_list rs sid) = Ok fs0 →
  Redis.decode_frames
    (Redis.frame_list (run redis_step (put_ops fs) rs).1 sid)
  = Ok (fs0 ++ filter (λ f, SessionID f = sid) fs)%list.
Proof.
  revert rs fs0. induction fs as [|f fs IH]; intros rs fs0 Hwt Hfs H0.
  - simpl. by rewrite filter_nil, app_nil_r.
  - apply Forall_cons in Hfs as [[pf Hpf] Hfs].
    destruct (redis_PutFrame_spec f pf rs Hwt Hpf) as (_ & _ & Hwt1 & _ & Hl1).
    change (put_ops (f :: fs)) with (OpPutFrame f :: put_ops fs).
    cbn [run]. rewrite redis_step_put. cbn beta iota.
    specialize (IH (Redis.PutFrame f rs).1).
    destruct (run redis_step (put_ops fs) (Redis.PutFrame f rs).1) as [s2 os].
    cbn [fst] in *. rewrite filter_cons.
    destruct (decide (SessionID f = sid)) as [<-|Hne].
    + rewrite (IH (fs0 ++ [f])%list Hwt1 Hfs).
      * by rewrite <- app_assoc.
      * rewrite Hl1, decide_True by done. by apply decode_frames_snoc.
    + apply IH; [done..|]. rewrite Hl1, decide_False; [done|]. by intros ->.
Qed.

Lemma find_index_in_session sid i fs :
  snd <$> list_find (λ f, Index f = i) (filter (λ f, SessionID f = sid) fs)
  = earliest_put sid i fs.
Proof.
  induction fs as [|f fs IH]; [done|].
  rewrite filter_cons. cbn [earliest_put].
  destruct (decide (SessionID f = sid)) as [Hs|Hs].
  - cbn [list_find]. destruct (decide (Index f = i)) as [Hi|Hi].
    + by rewrite decide_True.
    + rewrite decide_False by tauto. rewrite <- IH.
      by destruct (list_find _ (filter _ fs)) as [[? ?]|].
  - rewrite decide_False by tauto. done.
Qed.

Lemma redis_sound_New p :
  redis_sound (Redis.NewRedisStorage p : Redis.RedisStorage payload).
Proof.
  split; [apply redis_well_typed_New|].
  intros sid. exists []. by rewrite redis_New_frame_list.
Qed.

Lemma redis_sound_step op rs :
  redis_sound rs →
  match op with OpPutFrame f => is_Some (marshal f) | _ => True end →
  redis_sound (redis_step op rs).1 ∧
  match obs_error (redis_step op rs).2 with
  | Some e => is_not_found e = true
  | None => True
  end.
Proof.
  intros [Hwt Hdec] Hop. destruct op as [f|sid i|sid| |sid].
  - destruct Hop as [pf Hpf].
    destruct (redis_PutFrame_spec f pf rs Hwt Hpf) as (E & _ & Hwt1 & _ & Hl1).
    rewrite redis_step_put. cbn [fst snd obs_error]. rewrite E.
    split; [|done]. split; [done|].
    intros sid. rewrite Hl1. destruct (Hdec sid) as [fs Hfs].
    case_decide; [|eauto]. exists (fs ++ [f])%list. by apply decode_frames_snoc.
  - split; [done|]. cbn [redis_step snd obs_error].
    rewrite redis_GetFrame by done. case_decide; [|done].
    destruct (Hdec sid) as [fs Hfs].
    rewrite (scan_frames_decoded sid i _ fs Hfs).
    by destruct (list_find _ fs) as [[? ?]|].
  - split; [done|]. cbn [redis_step snd obs_error].
    rewrite redis_ListFrames by done. case_decide; [|done].
    destruct (Hdec sid) as [fs ->]. done.
  - split; [done|]. cbn [redis_step snd obs_error].
    by rewrite redis_ListSessions.
  - rewrite redis_step_delete. cbn [fst snd obs_error].
    destruct (decide (sid ∈ Redis.members rs)) as [Hin|Hout].
    + destruct (redis_DeleteSession_spec rs sid Hwt Hin) as (E & _ & Hwt1 & _ & Hl1).
      rewrite E. split; [|done]. split; [done|].
      intros sid'. rewrite Hl1. case_decide; [by exists []|apply Hdec].
    + rewrite redis_DeleteSession_absent.
      * done.
      * rewrite redis_SIsMember by done. by rewrite bool_decide_eq_false_2.
Qed.

End redis_log.

(** X4.  After any sequence of puts into an empty database (every frame
    marshals), [GetFrame] of [RedisStorage] returns the frame of the
    first put under the session and index; when there is none it reports
    the frame as not found if the session was put to, and the session as
    not found otherwise. *)
Theorem redis_GetFrame_puts {payload : Type} `{!FrameCodec payload}
    (p : string) (fs : list Frame) (sid : string) (i : Z) :
  Forall (λ f, is_Some (marshal f)) fs →
  Redis.GetFrame sid i (run redis_step (put_ops fs) (Redis.NewRedisStorage p)).1 =
    match earliest_put sid i fs with
    | Some f => Ok f
    | None =>
        if decide (sid ∈ SessionID <$> fs) then Err (ErrFrameNotFound sid i)
        else Err (ErrSessionNotFound sid)
    end.
Proof.
  intros Hfs.
  destruct (redis_run_puts fs (Redis.NewRedisStorage p) (redis_well_typed_New p) Hfs)
    as (_ & Hwt & Hm).
  pose proof (redis_puts_frame_list fs (Redis.NewRedisStorage p) sid []
                (redis_well_typed_New p) Hfs) as Hl.
  rewrite redis_New_frame_list in Hl. specialize (Hl eq_refl). simpl in Hl.
  rewrite redis_GetFrame by done.
  rewrite Hm, redis_New_members, (right_id_L ∅ (∪)).
  destruct (decide (sid ∈ SessionID <$> fs)) as [Hin|Hout].
  - rewrite decide_True by by apply elem_of_list_to_set.
    rewrite (scan_frames_decoded sid i _ _ Hl).
    rewrite <- find_index_in_session.
    by destruct (list_find _ (filter _ fs)) as [[? ?]|].
  - rewrite decide_False by by rewrite elem_of_list_to_set.
    assert (earliest_put sid i fs = None) as ->; [|done].
    clear -Hout. induction fs as [|f fs IH]; [done|].
    rewrite fmap_cons, not_elem_of_cons in Hout. destruct Hout as [? ?].
    cbn [earliest_put]. rewrite decide_False; [auto|]. intros [? _]. congruence.
Qed.

Lemma redis_GetFrame_puts_witness :
  Redis.GetFrame "s" 0
    (run redis_step (put_ops [frame_s1; frame_a5; frame_s0_a; frame_s0_b])
       (Redis.NewRedisStorage "relais:")).1
  = Ok frame_s0_a.
Proof.
  apply (redis_GetFrame_puts "relais:" [frame_s1; frame_a5; frame_s0_a; frame_s0_b] "s" 0).
  repeat constructor; by eexists.
Defined.

(** X5.  After any sequence of puts into an empty database (every frame
    marshals), [ListFrames] of [RedisStorage] on a session that was put
    to returns every frame put to the session, once per put, in
    ascending order of index. *)
Theorem redis_ListFrames_puts {payload : Type} `{!FrameCodec payload}
    (p : string) (fs : list Frame) (sid : string) :
  Forall (λ f, is_Some (marshal f)) fs →
  sid ∈ SessionID <$> fs →
  ∃ l, Redis.ListFrames sid
         (run redis_step (put_ops fs) (Redis.NewRedisStorage p)).1 = Ok l ∧
       l ≡ₚ filter (λ f, SessionID f = sid) fs ∧
       StronglySorted index_le l.
Proof.
  intros Hfs Hin.
  destruct (redis_run_puts fs (Redis.NewRedisStorage p) (redis_well_typed_New p) Hfs)
    as (_ & Hwt & Hm).
  pose proof (redis_puts_frame_list fs (Redis.NewRedisStorage p) sid []
                (redis_well_typed_New p) Hfs) as Hl.
  rewrite redis_New_frame_list in Hl. specialize (Hl eq_refl). simpl in Hl.
  rewrite redis_ListFrames by done.
  rewrite Hm, redis_New_members, (right_id_L ∅ (∪)).
  rewrite decide_True by by apply elem_of_list_to_set.
  rewrite Hl. eexists. split; [done|].
  split; [apply sort_frames_Permutation | apply sort_frames_StronglySorted].
Qed.

Lemma redis_ListFrames_puts_witness :
  ∃ l, Redis.ListFrames "s"
         (run redis_step (put_ops [frame_s1; frame_a5; frame_s0_a; frame_s0_b])
            (Redis.NewRedisStorage "relais:")).1 = Ok l ∧
       l ≡ₚ filter (λ f, SessionID f = "s") [frame_s1; frame_a5; frame_s0_a; frame_s0_b] ∧
       StronglySorted index_le l.
Proof.
  apply (redis_ListFrames_puts "relais:" [frame_s1; frame_a5; frame_s0_a; frame_s0_b] "s").
  - repeat constructor; by eexists.
  - apply list_elem_of_here.
Defined.

(** X6.  On every operation sequence run from an empty database (every
    frame put marshals), the only errors [RedisStorage] returns are
    "session not found" and "frame not found": no command fails on a key
    of the wrong type and no stored payload fails to decode. *)
Theorem redis_only_not_found_errors {payload : Type} `{!FrameCodec payload}
    (p : string) (ops : list Op) :
  all_marshal ops →
  Forall (λ o, match obs_error o with
               | Some e => is_not_found e = true
               | None => True
               end)
    (run redis_step ops (Redis.NewRedisStorage p)).2.
Proof.
  intros Hops.
  pose proof (redis_sound_New (payload := payload) p) as Hs.
  revert Hs. generalize (Redis.NewRedisStorage p : Redis.RedisStorage payload).
  induction ops as [|op ops IH]; intros rs Hs; [constructor|].
  apply Forall_cons in Hops as [Hop Hops].
  destruct (redis_sound_step op rs Hs Hop) as [Hs1 Ho].
  specialize (IH Hops _ Hs1). cbn [run].
  destruct (redis_step op rs) as [rs1 o]. cbn [fst snd] in *.
  destruct (run redis_step ops rs1) as [rs2 os]. cbn [snd] in *.
  by constructor.
Qed.

Lemma redis_only_not_found_errors_witness :
  Forall (λ o, match obs_error o with
               | Some e => is_not_found e = true
               | None => True
               end)
    (run redis_step
       [OpPutFrame frame_s0_a; OpPutFrame frame_s0_b; OpGetFrame "s" 7;
        OpListFrames "a"; OpDeleteSession "s"; OpDeleteSession "s";
        OpListSessions]
       (Redis.NewRedisStorage "relais:")).2.
Proof.
  apply (redis_only_not_found_errors "relais:").
  repeat constructor; by eexists.
Defined.

(** ** Both backends: sessions are independent *)

Section isolation.
Context {payload : Type} `{!FrameCodec payload}.

Lemma mem_step_other_session op ms sid :
  ¬ writes_to op sid →
  Mem.frames (mem_step op ms).1 !! sid = Mem.frames ms !! sid.
Proof.
  intros Hop. destruct op as [f|s i|s| |s]; try done.
  - change (mem_step (OpPutFrame f) ms) with ((Mem.PutFrame f ms).1, ObsError None).
    cbn [fst]. rewrite mem_PutFrame_frames. by apply lookup_insert_ne.
  - simpl in Hop. simpl. unfold Mem.DeleteSession.
    destruct (Mem.frames ms !! s); [|done].
    cbn [fst Mem.frames]. by apply lookup_delete_ne.
Qed.

Lemma redis_step_other_session op (rs : Redis.RedisStorage payload) sid :
  Redis.well_typed rs → ¬ writes_to op sid →
  Redis.well_typed (redis_step op rs).1 ∧
  (sid ∈ Redis.members (redis_step op rs).1 ↔ sid ∈ Redis.members rs) ∧
  Redis.frame_list (redis_step op rs).1 sid = Redis.frame_list rs sid.
Proof.
  intros Hwt Hop. destruct op as [f|s i|s| |s]; try done.
  - rewrite redis_step_put. cbn [fst]. simpl in Hop.
    destruct (marshal f) as [pf|] eqn:Hpf.
    + destruct (redis_PutFrame_spec f pf rs Hwt Hpf) as (_ & _ & Hwt1 & Hm1 & Hl1).
      split; [done|]. split.
      * rewrite Hm1, elem_of_union, elem_of_singleton. split; [|auto].
        by intros [->|?].
      * rewrite Hl1. rewrite decide_False; [done|]. by intros ->.
    + unfold Redis.PutFrame. by rewrite Hpf.
  - rewrite redis_step_delete. cbn [fst]. simpl in Hop.
    destruct (decide (s ∈ Redis.members rs)) as [Hin|Hout].
    + destruct (redis_DeleteSession_spec rs s Hwt Hin) as (_ & _ & Hwt1 & Hm1 & Hl1).
      split; [done|]. split.
      * rewrite Hm1, elem_of_difference, elem_of_singleton. split; [tauto|].
        intros ?. split; [done|]. by intros ->.
      * rewrite Hl1. rewrite decide_False; [done|]. by intros ->.
    + rewrite redis_DeleteSession_absent; [done|].
      rewrite redis_SIsMember by done. by rewrite bool_decide_eq_false_2.
Qed.

End isolation.

(** X7.  An operation that does not write to a session (it is a read, or
    a put or delete of another session) leaves what [GetFrame] and
    [ListFrames] return for the session as it was, in both backends. *)
Theorem other_sessions_untouched {payload : Type} `{!FrameCodec payload}
    (op : Op) (sid : string) (i : Z)
    (ms : Mem.MemoryStorage) (rs : Redis.RedisStorage payload) :
  ¬ writes_to op sid → Redis.well_typed rs →
  Mem.GetFrame sid i (mem_step op ms).1 = Mem.GetFrame sid i ms ∧
  Mem.ListFrames sid (mem_step op ms).1 = Mem.ListFrames sid ms ∧
  Redis.GetFrame sid i (redis_step op rs).1 = Redis.GetFrame sid i rs ∧
  Redis.ListFrames sid (redis_step op rs).1 = Redis.ListFrames sid rs.
Proof.
  intros Hop Hwt.
  pose proof (mem_step_other_session op ms sid Hop) as Hm.
  destruct (redis_step_other_session op rs sid Hwt Hop) as (Hwt1 & Hmem & Hl).
  unfold Mem.GetFrame, Mem.ListFrames. rewrite Hm.
  split; [done|]. split; [done|].
  rewrite !redis_GetFrame, !redis_ListFrames by done. rewrite Hl.
  split; destruct (decide (sid ∈ Redis.members rs));
    [by rewrite decide_True by by apply Hmem
    |by rewrite decide_False by by rewrite Hmem
    |by rewrite decide_True by by apply Hmem
    |by rewrite decide_False by by rewrite Hmem].
Qed.

Lemma other_sessions_untouched_witness :
  let ms := (run mem_step (put_ops [frame_s0_a; frame_a5]) Mem.NewMemoryStorage).1 in
  let rs := (run redis_step (put_ops [frame_s0_a; frame_a5])
               (Redis.NewRedisStorage "relais:")).1 in
  Mem.GetFrame "s" 0 (mem_step (OpDeleteSession "a") ms).1 = Mem.GetFrame "s" 0 ms ∧
  Mem.ListFrames "s" (mem_step (OpDeleteSession "a") ms).1 = Mem.ListFrames "s" ms ∧
  Redis.GetFrame "s" 0 (redis_step (OpDeleteSession "a") rs).1 = Redis.GetFrame "s" 0 rs ∧
  Redis.ListFrames "s" (redis_step (OpDeleteSession "a") rs).1 = Redis.ListFrames "s" rs.
Proof.
  intros ms rs.
  apply (other_sessions_untouched (OpDeleteSession "a") "s" 0 ms rs).
  - discriminate.
  - apply (redis_run_puts [frame_s0_a; frame_a5] (Redis.NewRedisStorage "relais:")).
    + apply redis_well_typed_New.
    + repeat constructor; by eexists.
Defined.

(** X8.  [DeleteSession] clears the session: when a session that the
    store holds is deleted and one frame is then put to it, [ListFrames]
    returns that frame alone and [GetFrame] at its index returns it, in
    both backends. *)
Theorem delete_then_put_starts_afresh {payload : Type} `{!FrameCodec payload}
    (f : Frame) (ms : Mem.MemoryStorage) (rs : Redis.RedisStorage payload) :
  is_Some (marshal f) → Redis.well_typed rs →
  is_Some (Mem.frames ms !! SessionID f) → SessionID f ∈ Redis.members rs →
  let ms' := (Mem.PutFrame f (Mem.DeleteSession (SessionID f) ms).1).1 in
  let rs' := (Redis.PutFrame f (Redis.DeleteSession (SessionID f) rs).1).1 in
  Mem.ListFrames (SessionID f) ms' = Ok [f] ∧
  Mem.GetFrame (SessionID f) (Index f) ms' = Ok f ∧
  Redis.ListFrames (SessionID f) rs' = Ok [f] ∧
  Redis.GetFrame (SessionID f) (Index f) rs' = Ok f.
Proof.
  intros [pf Hpf] Hwt [M HM] Hin. cbv zeta.
  split; [|split; [apply mem_GetFrame_PutFrame|]].
  - unfold Mem.ListFrames. rewrite mem_PutFrame_frames, lookup_insert_eq.
    unfold Mem.DeleteSession. rewrite HM. cbn [fst Mem.frames].
    rewrite lookup_delete_eq. simpl.
    by rewrite insert_empty, map_to_list_singleton.
  - destruct (redis_DeleteSession_spec rs (SessionID f) Hwt Hin)
      as (_ & _ & Hwt1 & Hm1 & Hl1).
    destruct (redis_PutFrame_spec f pf _ Hwt1 Hpf) as (_ & _ & Hwt2 & Hm2 & Hl2).
    assert (Redis.frame_list
              (Redis.PutFrame f (Redis.DeleteSession (SessionID f) rs).1).1
              (SessionID f) = [pf]) as Hl.
    { by rewrite Hl2, Hl1, !decide_True by done. }
    assert (SessionID f ∈ Redis.members
              (Redis.PutFrame f (Redis.DeleteSession (SessionID f) rs).1).1) as Hmem.
    { rewrite Hm2. apply elem_of_union_l. by apply elem_of_singleton. }
    rewrite redis_ListFrames, redis_GetFrame by done.
    rewrite !decide_True by done. rewrite Hl. simpl.
    rewrite (unmarshal_marshal f pf Hpf). by rewrite decide_True.
Qed.

Lemma delete_then_put_starts_afresh_witness :
  let ms := (run mem_step (put_ops [frame_s0_a; frame_s1]) Mem.NewMemoryStorage).1 in
  let rs := (run redis_step (put_ops [frame_s0_a; frame_s1])
               (Redis.NewRedisStorage "relais:")).1 in
  let ms' := (Mem.PutFrame frame_s0_b (Mem.DeleteSession "s" ms).1).1 in
  let rs' := (Redis.PutFrame frame_s0_b (Redis.DeleteSession "s" rs).1).1 in
  Mem.ListFrames "s" ms' = Ok [frame_s0_b] ∧
  Mem.GetFrame "s" 0 ms' = Ok frame_s0_b ∧
  Redis.ListFrames "s" rs' = Ok [frame_s0_b] ∧
  Redis.GetFrame "s" 0 rs' = Ok frame_s0_b.
Proof.
  intros ms rs.
  apply (delete_then_put_starts_afresh frame_s0_b ms rs).
  - by eexists.
  - apply (redis_run_puts [frame_s0_a; frame_s1] (Redis.NewRedisStorage "relais:")).
    + apply redis_well_typed_New.
    + repeat constructor; by eexists.
  - by eexists.
  - vm_compute. reflexivity.
Defined.

(** X9.  The key schema of [RedisStorage] keeps sessions apart: the list
    key of a session is never the key of the active-sessions set, and
    two sessions never share a list key, whatever the prefix and the
    session IDs. *)
Theorem redis_keys_distinct {payload : Type}
    (rs : Redis.RedisStorage payload) (sid1 sid2 : string) :
  sid1 ≠ sid2 →
  Redis.frameKey rs sid1 ≠ Redis.frameKey rs sid2 ∧
  Redis.frameKey rs sid1 ≠ Redis.sessionKey rs.
Proof.
  intros Hne. split.
  - by intros ?%frameKey_inj.
  - apply frameKey_ne_sessionKey.
Qed.

Lemma redis_keys_distinct_witness :
  Redis.frameKey (Redis.NewRedisStorage "" : Redis.RedisStorage Frame)
    "active_sessions"
  ≠ Redis.frameKey (Redis.NewRedisStorage "" : Redis.RedisStorage Frame) "s" ∧
  Redis.frameKey (Redis.NewRedisStorage "" : Redis.RedisStorage Frame)
    "active_sessions"
  ≠ Redis.sessionKey (Redis.NewRedisStorage "" : Redis.RedisStorage Frame).
Proof.
  apply (redis_keys_distinct (Redis.NewRedisStorage "" : Redis.RedisStorage Frame)
           "active_sessions" "s").
  discriminate.
Defined.

Lemma backends_agree_without_overwrite_witness :
  let ops := [OpPutFrame frame_s1; OpPutFrame frame_a5; OpPutFrame frame_s0_a;
              OpListFrames "s"; OpGetFrame "s" 0; OpGetFrame "s" 9;
              OpListSessions; OpDeleteSession "s"; OpListFrames "s";
              OpPutFrame frame_s0_b; OpDeleteSession "b"; OpListFrames "s"] in
  (run mem_step ops Mem.NewMemoryStorage).2 =
    (run redis_step ops (Redis.NewRedisStorage "relais:")).2.
Proof.
  apply (backends_agree_without_overwrite "relais:").
  - repeat constructor; by eexists.
  - vm_compute. tauto.
Defined.

(** ** [SessionManager]: lookups, removal and the cleanup worker *)

Section session_more.
Import Session.
Context {metadata : Type}.

Implicit Types (sm : SessionManager metadata) (s : SessionInfo metadata).

Lemma cleanup_lookup now maxAge sm id :
  GetSession id (cleanupExpiredSessions now maxAge sm) =
    match GetSession id sm with
    | Some s => if decide (GoTime.Sub now (CreatedAt s) > maxAge) then None else Some s
    | None => None
    end.
Proof.
  unfold GetSession, cleanupExpiredSessions. cbn [sessions].
  destruct (sessions sm !! id) as [s|] eqn:E.
  - case_decide as Hexp.
    + apply (cleanup_fold_evicted now maxAge _ _ id s); [|done].
      by apply elem_of_map_to_list.
    + rewrite cleanup_fold_kept; [done|].
      intros s' Hs'%elem_of_map_to_list. by simplify_eq.
  - by apply cleanup_fold_None.
Qed.

Lemma elem_of_GetActiveSessions sm s :
  s ∈ GetActiveSessions sm ↔ ∃ id, GetSession id sm = Some s.
Proof.
  unfold GetActiveSessions, GetSession. rewrite list_elem_of_fmap. split.
  - intros [[id s'] [-> H%elem_of_map_to_list]]. eauto.
  - intros [id H]. exists (id, s). split; [done|]. by apply elem_of_map_to_list.
Qed.

End session_more.

(** X10.  [CreateSession] stores what it returns: the returned session
    is found under its ID, every other ID is as before, and the number
    of active sessions grows by one exactly when the ID was free (a
    session that held the ID is replaced). *)
Theorem create_session_stores {metadata : Type}
    (zone : Z) (now_id now : Time) (ty : string) (md : metadata)
    (sm : Session.SessionManager metadata) (id : string) :
  let r := Session.CreateSession zone now_id now ty md sm in
  Session.GetSession (Session.ID r.2) r.1 = Some r.2 ∧
  r.2 = {| Session.ID := Session.generateSessionID zone now_id;
           Session.CreatedAt := now;
           Session.Type_ := ty;
           Session.Metadata := md |} ∧
  (id ≠ Session.ID r.2 →
   Session.GetSession id r.1 = Session.GetSession id sm) ∧
  length (Session.GetActiveSessions r.1) =
    match Session.GetSession (Session.ID r.2) sm with
    | Some _ => length (Session.GetActiveSessions sm)
    | None => S (length (Session.GetActiveSessions sm))
    end.
Proof.
  cbv zeta. unfold Session.CreateSession, Session.GetSession,
    Session.GetActiveSessions. cbn [fst snd Session.sessions Session.ID].
  split; [apply lookup_insert_eq|]. split; [done|]. split.
  - intros Hne. by apply lookup_insert_ne.
  - rewrite !length_fmap, !length_map_to_list.
    destruct (Session.sessions sm !! Session.generateSessionID zone now_id) eqn:E.
    + apply map_size_insert_Some. eauto.
    + by apply map_size_insert_None.
Qed.

(** X11.  [CleanupSession] removes the session under the ID and no
    other; on an ID that is absent it changes nothing, so a second call
    is without effect. *)
Theorem cleanup_session_removes {metadata : Type}
    (sm : Session.SessionManager metadata) (id id' : string) :
  Session.GetSession id (Session.CleanupSession id sm) = None ∧
  (id' ≠ id →
   Session.GetSession id' (Session.CleanupSession id sm)
   = Session.GetSession id' sm) ∧
  Session.CleanupSession id (Session.CleanupSession id sm)
    = Session.CleanupSession id sm ∧
  (Session.GetSession id sm = None → Session.CleanupSession id sm = sm).
Proof.
  unfold Session.GetSession.
  assert (Session.sessions (Session.CleanupSession id sm)
          = delete id (Session.sessions sm)) as Hd.
  { unfold Session.CleanupSession.
    destruct (Session.sessions sm !! id) eqn:E; [done|].
    symmetry. by apply delete_id. }
  split; [by rewrite Hd, lookup_delete_eq|]. split; [|split].
  - intros Hne. rewrite Hd. by apply lookup_delete_ne.
  - unfold Session.CleanupSession at 1. by rewrite Hd, lookup_delete_eq.
  - intros Hn. unfold Session.CleanupSession. by rewrite Hn.
Qed.

(** X12.  [GetActiveSessions] returns one entry per stored session, and
    after an eviction scan it returns exactly the sessions it returned
    before whose age is at most [maxAge]. *)
Theorem active_sessions_after_cleanup {metadata : Type}
    (now : Time) (maxAge : Z) (sm : Session.SessionManager metadata)
    (s : Session.SessionInfo metadata) :
  length (Session.GetActiveSessions sm) = size (Session.sessions sm) ∧
  (s ∈ Session.GetActiveSessions (Session.cleanupExpiredSessions now maxAge sm) ↔
   s ∈ Session.GetActiveSessions sm ∧
   GoTime.Sub now (Session.CreatedAt s) <= maxAge).
Proof.
  split.
  { unfold Session.GetActiveSessions. by rewrite length_fmap, length_map_to_list. }
  rewrite !elem_of_GetActiveSessions. split.
  - intros [id Hid]. rewrite cleanup_lookup in Hid.
    destruct (Session.GetSession id sm) as [s'|] eqn:E; [|done].
    case_decide; [done|]. injection Hid as ->. split; [eauto|lia].
  - intros [[id Hid] Hage]. exists id. rewrite cleanup_lookup, Hid.
    rewrite decide_False; [done|lia].
Qed.

(** X13.  The cleanup worker serves the ticks that come before its
    context is done and nothing after: a session is present when the
    worker has served its events exactly if it was present before and
    its age exceeded [maxAge] at none of those ticks, and then it is
    unchanged. *)
Theorem cleanup_worker_evicts {metadata : Type}
    (events : list Session.WorkerEvent) (maxAge : Z)
    (sm : Session.SessionManager metadata) (id : string) :
  Session.GetSession id (Session.StartCleanupWorker events maxAge sm) =
    match Session.GetSession id sm with
    | Some s =>
        if decide (Exists (λ now, GoTime.Sub now (Session.CreatedAt s) > maxAge)
                     (ticks_before_done events))
        then None else Some s
    | None => None
    end.
Proof.
  revert sm. induction events as [|[|now] events IH]; intros sm;
    cbn [Session.StartCleanupWorker ticks_before_done].
  - destruct (Session.GetSession id sm); [|done].
    by rewrite decide_False by by intros ?%Exists_nil.
  - destruct (Session.GetSession id sm); [|done].
    by rewrite decide_False by by intros ?%Exists_nil.
  - rewrite IH, cleanup_lookup.
    destruct (Session.GetSession id sm) as [s|]; [|done].
    destruct (decide (GoTime.Sub now (Session.CreatedAt s) > maxAge)) as [Hexp|Hexp].
    + rewrite decide_True; [done|]. by apply Exists_cons_hd.
    + destruct (decide (Exists _ (ticks_before_done events))) as [He|He].
      * rewrite decide_True; [done|]. by apply Exists_cons_tl.
      * rewrite decide_False; [done|].
        intros [?|?]%Exists_cons; done.
Qed.

(** ** [PluginManager] and [Registry]: the life of a status entry *)

Section manager_more.
Import Plugins.
Context {config : Type}.

Implicit Types (r : Registry config) (pm : PluginManager config).

Lemma StartPlugin_ok now pType name cfg pm plugin :
  Create pType name (registry pm) = Ok plugin →
  Initialize plugin cfg = None →
  StartPlugin now pType name cfg pm =
    ({| registry := registry pm;
        status := <[name := {| Running := true; StartTime := now; Error := None |}]>
                    (status pm) |}, None).
Proof. intros Hc Hi. unfold StartPlugin. by rewrite Hc, Hi. Qed.

Lemma StartPlugin_status_other now pType name cfg pm name' :
  name' ≠ name →
  status (StartPlugin now pType name cfg pm).1 !! name' = status pm !! name'.
Proof.
  intros Hne. unfold StartPlugin.
  destruct (Create pType name (registry pm)) as [plugin|]; [|done].
  destruct (Initialize plugin cfg); [done|].
  cbn [fst status]. by apply lookup_insert_ne.
Qed.

Lemma StopPlugin_status_other name pm name' :
  name' ≠ name →
  status (StopPlugin name pm).1 !! name' = status pm !! name'.
Proof.
  intros Hne. unfold StopPlugin.
  destruct (status pm !! name) as [st|]; [|done].
  destruct (Running st); [|done].
  cbn [fst status]. by apply lookup_insert_ne.
Qed.

Lemma stop_not_running_aux name pm :
  match status pm !! name with
  | Some st => Running st = false
  | None => True
  end →
  StopPlugin name pm = (pm, Some (ErrNotRunning name)).
Proof.
  unfold StopPlugin.
  destruct (status pm !! name) as [st|]; [|done]. by intros ->.
Qed.

Lemma StopPlugin_running name pm st :
  status pm !! name = Some st → Running st = true →
  StopPlugin name pm =
    ({| registry := registry pm;
        status := <[name := {| Running := false; StartTime := StartTime st;
                               Error := None |}]> (status pm) |}, None).
Proof. intros Hs Hr. unfold StopPlugin. by rewrite Hs, Hr. Qed.

End manager_more.

(** X14.  [StartPlugin] for a kind and name without a registered factory
    returns the registry's not-found error, wrapped, and leaves the
    manager as it was. *)
Theorem start_unregistered_plugin {config : Type}
    (now : Time) (pType : Plugins.PluginType) (name : string) (cfg : config)
    (pm : Plugins.PluginManager config) :
  Plugins.lookup_factory (Plugins.registry pm) pType name = None →
  Plugins.StartPlugin now pType name cfg pm =
    (pm, Some (Plugins.ErrCreate (Plugins.ErrNotFound pType name))).
Proof.
  intros H. unfold Plugins.StartPlugin.
  by rewrite Create_lookup_factory, H.
Qed.

Lemma start_unregistered_plugin_witness :
  Plugins.StartPlugin now_a "egress" "nonexistent" tt
    (Plugins.NewPluginManager (Plugins.NewRegistry (config := unit)))
  = (Plugins.NewPluginManager Plugins.NewRegistry,
     Some (Plugins.ErrCreate (Plugins.ErrNotFound "egress" "nonexistent"))).
Proof.
  apply (start_unregistered_plugin now_a "egress" "nonexistent" tt
           (Plugins.NewPluginManager Plugins.NewRegistry)).
  reflexivity.
Defined.

(** X15.  After a successful [StartPlugin], [StopPlugin] of the name
    succeeds and the status stays queryable: not running, with the start
    time of the start and no error; a second [StopPlugin] returns the
    not-running error and changes nothing. *)
Theorem start_then_stop {config : Type}
    (now : Time) (pType : Plugins.PluginType) (name : string) (cfg : config)
    (pm : Plugins.PluginManager config) (plugin : Plugins.Plugin config) :
  Plugins.Create pType name (Plugins.registry pm) = Ok plugin →
  Plugins.Initialize plugin cfg = None →
  let pm1 := (Plugins.StartPlugin now pType name cfg pm).1 in
  let pm2 := (Plugins.StopPlugin name pm1).1 in
  (Plugins.StopPlugin name pm1).2 = None ∧
  Plugins.GetPluginStatus name pm2
    = Ok {| Plugins.Running := false;
            Plugins.StartTime := now;
            Plugins.Error := None |} ∧
  Plugins.StopPlugin name pm2 = (pm2, Some (Plugins.ErrNotRunning name)) ∧
  Plugins.registry pm2 = Plugins.registry pm.
Proof.
  intros Hc Hi. cbv zeta. rewrite (StartPlugin_ok now pType name cfg pm plugin Hc Hi).
  cbn [fst].
  erewrite StopPlugin_running;
    [|cbn [Plugins.status]; apply lookup_insert_eq|done].
  cbn [fst snd Plugins.registry Plugins.status Plugins.StartTime].
  split; [done|]. split.
  { unfold Plugins.GetPluginStatus. cbn [Plugins.status]. by rewrite lookup_insert_eq. }
  split; [|done].
  apply stop_not_running_aux. cbn [Plugins.status]. by rewrite lookup_insert_eq.
Qed.

Lemma start_then_stop_witness :
  let r := (Plugins.Register "ingress" "camera" (λ _ : unit, plugin_ok)
              Plugins.NewRegistry).1 in
  let pm := Plugins.NewPluginManager r in
  let pm1 := (Plugins.StartPlugin now_a "ingress" "camera" tt pm).1 in
  let pm2 := (Plugins.StopPlugin "camera" pm1).1 in
  (Plugins.StopPlugin "camera" pm1).2 = None ∧
  Plugins.GetPluginStatus "camera" pm2
    = Ok {| Plugins.Running := false;
            Plugins.StartTime := now_a;
            Plugins.Error := None |} ∧
  Plugins.StopPlugin "camera" pm2 = (pm2, Some (Plugins.ErrNotRunning "camera")) ∧
  Plugins.registry pm2 = Plugins.registry pm.
Proof.
  intros r pm.
  apply (start_then_stop now_a "ingress" "camera" tt pm plugin_ok); reflexivity.
Defined.

(** X16.  [StopPlugin] of a name that has no status entry, or whose
    entry is not running, returns the not-running error and leaves the
    manager as it was. *)
Theorem stop_not_running {config : Type}
    (name : string) (pm : Plugins.PluginManager config) :
  match Plugins.status pm !! name with
  | Some st => Plugins.Running st = false
  | None => True
  end →
  Plugins.StopPlugin name pm = (pm, Some (Plugins.ErrNotRunning name)).
Proof. apply stop_not_running_aux. Qed.

Lemma stop_not_running_witness :
  Plugins.StopPlugin "camera"
    (Plugins.NewPluginManager (Plugins.NewRegistry (config := unit)))
  = (Plugins.NewPluginManager Plugins.NewRegistry,
     Some (Plugins.ErrNotRunning "camera")).
Proof.
  apply (stop_not_running "camera" (Plugins.NewPluginManager Plugins.NewRegistry)).
  exact I.
Defined.

(** X17.  The status is kept per name, whatever the kind: a successful
    [StartPlugin] under a name replaces the entry an earlier successful
    [StartPlugin] under that name left, so the manager is as if only the
    later start had happened. *)
Theorem restart_replaces_status {config : Type}
    (t1 t2 : Time) (k1 k2 : Plugins.PluginType) (name : string) (cfg1 cfg2 : config)
    (pm : Plugins.PluginManager config) (plugin1 plugin2 : Plugins.Plugin config) :
  Plugins.Create k1 name (Plugins.registry pm) = Ok plugin1 →
  Plugins.Initialize plugin1 cfg1 = None →
  Plugins.Create k2 name (Plugins.registry pm) = Ok plugin2 →
  Plugins.Initialize plugin2 cfg2 = None →
  Plugins.StartPlugin t2 k2 name cfg2 (Plugins.StartPlugin t1 k1 name cfg1 pm).1
  = Plugins.StartPlugin t2 k2 name cfg2 pm.
Proof.
  intros Hc1 Hi1 Hc2 Hi2.
  rewrite (StartPlugin_ok t1 k1 name cfg1 pm plugin1 Hc1 Hi1). cbn [fst].
  rewrite (StartPlugin_ok t2 k2 name cfg2 pm plugin2 Hc2 Hi2).
  rewrite (StartPlugin_ok t2 k2 name cfg2 (Plugins.mkPluginManager _ _) plugin2 Hc2 Hi2).
  cbn [Plugins.registry Plugins.status]. by rewrite insert_insert_eq.
Qed.

Lemma restart_replaces_status_witness :
  let r := (Plugins.run_register
              [("ingress", "stream", λ _ : unit, plugin_ok);
               ("egress", "stream", λ _ : unit, plugin_ok)]
              Plugins.NewRegistry).1 in
  let pm := Plugins.NewPluginManager r in
  Plugins.StartPlugin now_c "egress" "stream" tt
    (Plugins.StartPlugin now_a "ingress" "stream" tt pm).1
  = Plugins.StartPlugin now_c "egress" "stream" tt pm.
Proof.
  intros r pm.
  apply (restart_replaces_status now_a now_c "ingress" "egress" "stream" tt tt pm
           plugin_ok plugin_ok); reflexivity.
Defined.

(** X18.  [StartPlugin] and [StopPlugin] of one name leave the status of
    every other name, and the registry, as they were. *)
Theorem other_plugins_untouched {config : Type}
    (now : Time) (pType : Plugins.PluginType) (name name' : string) (cfg : config)
    (pm : Plugins.PluginManager config) :
  name' ≠ name →
  Plugins.GetPluginStatus name' (Plugins.StartPlugin now pType name cfg pm).1
    = Plugins.GetPluginStatus name' pm ∧
  Plugins.GetPluginStatus name' (Plugins.StopPlugin name pm).1
    = Plugins.GetPluginStatus name' pm ∧
  Plugins.registry (Plugins.StartPlugin now pType name cfg pm).1
    = Plugins.registry pm ∧
  Plugins.registry (Plugins.StopPlugin name pm).1 = Plugins.registry pm.
Proof.
  intros Hne. unfold Plugins.GetPluginStatus.
  rewrite StartPlugin_status_other, StopPlugin_status_other by done.
  split; [done|]. split; [done|]. split.
  - unfold Plugins.StartPlugin.
    destruct (Plugins.Create pType name (Plugins.registry pm)) as [plugin|]; [|done].
    by destruct (Plugins.Initialize plugin cfg).
  - unfold Plugins.StopPlugin.
    destruct (Plugins.status pm !! name) as [st|]; [|done].
    by destruct (Plugins.Running st).
Qed.

Lemma other_plugins_untouched_witness :
  let r := (Plugins.run_register
              [("ingress", "camera", λ _ : unit, plugin_ok);
               ("egress", "stream", λ _ : unit, plugin_ok)]
              Plugins.NewRegistry).1 in
  let pm := (Plugins.StartPlugin now_a "egress" "stream" tt
               (Plugins.NewPluginManager r)).1 in
  Plugins.GetPluginStatus "stream" (Plugins.StartPlugin now_c "ingress" "camera" tt pm).1
    = Plugins.GetPluginStatus "stream" pm ∧
  Plugins.GetPluginStatus "stream" (Plugins.StopPlugin "camera" pm).1
    = Plugins.GetPluginStatus "stream" pm ∧
  Plugins.registry (Plugins.StartPlugin now_c "ingress" "camera" tt pm).1
    = Plugins.registry pm ∧
  Plugins.registry (Plugins.StopPlugin "camera" pm).1 = Plugins.registry pm.
Proof.
  intros r pm.
  apply (other_plugins_untouched now_c "ingress" "camera" "stream" tt pm).
  discriminate.
Defined.

(** X19.  [Register] of one kind and name leaves what [Create] returns
    for every other kind and name as it was, whether the registration
    succeeded or not. *)
Theorem register_leaves_other_pairs {config : Type}
    (r : Plugins.Registry config) (pType pType' : Plugins.PluginType)
    (name name' : string) (factory : Plugins.PluginFactory config) :
  ¬ (pType = pType' ∧ name = name') →
  Plugins.Create pType' name' (Plugins.Register pType name factory r).1
    = Plugins.Create pType' name' r.
Proof.
  intros Hne. rewrite !Create_lookup_factory.
  destruct (Plugins.lookup_factory r pType name) as [g|] eqn:E.
  - by rewrite (Register_registered _ _ _ _ g).
  - destruct (Register_fresh pType name factory r E) as [_ ->].
    by rewrite decide_False.
Qed.

Lemma register_leaves_other_pairs_witness :
  let r := (Plugins.Register "ingress" "camera" (λ _ : unit, plugin_ok)
              Plugins.NewRegistry).1 in
  Plugins.Create "ingress" "camera"
    (Plugins.Register "egress" "camera" (λ _ : unit, plugin_failing) r).1
  = Plugins.Create "ingress" "camera" r.
Proof.
  intros r.
  apply (register_leaves_other_pairs r "egress" "ingress" "camera" "camera").
  intros [H _]. discriminate H.
Defined.

(** ** The camera plugin against the stores *)

Example camera_run_example :
  (Camera.Run Camera.NewCameraPlugin
     [Camera.TickerC now_a; Camera.TickerC now_b; Camera.CtxDone Camera.Canceled;
      Camera.TickerC now_c]
     Mem.NewMemoryStorage).2
  = Camera.Returned (Camera.ErrCtx Camera.Canceled).
Proof. reflexivity. Qed.

Section camera_facts.
Import Camera.



Lemma StronglySorted_index_lt_NoDup l :
  StronglySorted index_lt l → NoDup (Index <$> l).
Proof.
  induction 1 as [|f l Hl IH Hf]; simpl; constructor; [|done].
  intros [g [Hi Hg]]%list_elem_of_fmap.
  rewrite Forall_forall in Hf. specialize (Hf g Hg).
  unfold index_lt in Hf. lia.
Qed.






Context {payload : Type} `{!FrameCodec payload}.



Lemma camera_loop_no_panic {S : Type} `{!Store.Storage S}
    dev idx events (store : S) msg :
  (loop dev idx events store).2 ≠ Panic msg.
Proof.
  revert idx store. induction events as [|[err|now] events IH]; intros idx store;
    cbn [loop]; [done..|].
  destruct (Store.PutFrame (frame dev idx now) store) as [store1 [e|]]; [done|].
  apply IH.
Qed.

Lemma camera_run_panics {S : Type} `{!Store.Storage S}
    (p : CameraPlugin) events (store : S) :
  (∃ msg, Run p events store = (store, Panic msg)) ↔
  (fps p <= 0 ∨ 10 ^ 9 < fps p).
Proof.
  unfold Run, GoTime.Second.
  destruct (decide (fps p = 0)) as [H0|H0]; [split; [lia|eauto]|].
  assert (1000000000 `quot` fps p <= 0 ↔ fps p < 0 ∨ 10 ^ 9 < fps p) as Hq.
  { destruct (Z.lt_trichotomy (fps p) 0) as [Hneg|[?|Hpos]]; [|done|].
    - split; [auto|]. intros _.
      replace (fps p) with (- (- fps p)) by lia.
      rewrite Z.quot_opp_r by lia.
      pose proof (Z.quot_pos 1000000000 (- fps p)). lia.
    - rewrite Z.quot_div_nonneg by lia.
      destruct (decide (fps p <= 10 ^ 9)) as [Hle|Hgt].
      + pose proof (Z.div_le_lower_bound 1000000000 (fps p) 1). lia.
      + rewrite Z.div_small by lia. lia. }
  case_decide as Hd.
  - split; [intros _; lia|eauto].
  - split; [|lia]. intros [msg Hmsg].
    destruct (camera_loop_no_panic (deviceID p) 0 events store msg).
    by rewrite Hmsg.
Qed.

End camera_facts.



(** X21.  The camera does not check its frame rate: [Initialize] takes
    every integer [fps] option without an error, and [Run] of the
    initialized camera panics, before it touches the store, exactly when
    that frame rate is zero, negative or above 10^9. *)
Theorem camera_fps_unchecked {S : Type} `{!Store.Storage S}
    (config : gmap string ConfigValue) (n : Z) (p : Camera.CameraPlugin)
    (events : list Camera.RunEvent) (store : S) :
  config !! "fps" = Some (CfgInt n) →
  (Camera.Initialize config p).2 = None ∧
  Camera.fps (Camera.Initialize config p).1 = n ∧
  ((∃ msg, Camera.Run (Camera.Initialize config p).1 events store
           = (store, Camera.Panic msg)) ↔
   (n <= 0 ∨ 10 ^ 9 < n)).
Proof.
  intros Hfps.
  assert (Camera.fps (Camera.Initialize config p).1 = n) as Hn.
  { unfold Camera.Initialize. by rewrite Hfps. }
  split; [done|]. split; [done|].
  by rewrite camera_run_panics, Hn.
Qed.

Lemma camera_fps_unchecked_witness :
  (Camera.Initialize {["fps" := CfgInt 0]} Camera.NewCameraPlugin).2 = None ∧
  Camera.fps (Camera.Initialize {["fps" := CfgInt 0]} Camera.NewCameraPlugin).1 = 0 ∧
  ((∃ msg, Camera.Run
             (Camera.Initialize {["fps" := CfgInt 0]} Camera.NewCameraPlugin).1
             [Camera.TickerC now_a] Mem.NewMemoryStorage
           = (Mem.NewMemoryStorage, Camera.Panic msg)) ↔
   (0 <= 0 ∨ 10 ^ 9 < 0)).
Proof.
  apply (camera_fps_unchecked {["fps" := CfgInt 0]} 0 Camera.NewCameraPlugin
           [Camera.TickerC now_a] Mem.NewMemoryStorage).
  reflexivity.
Defined.

(** ** Codecs *)

(** X22.  No codec is classified as both video and audio. *)
Theorem codec_video_audio_disjoint (c : Frames.CodecType) :
  Frames.IsVideo c && Frames.IsAudio c = false.
Proof.
  unfold Frames.IsVideo, Frames.IsAudio.
  repeat case_bool_decide; subst; done.
Qed.

(** ** The watermark plugin against the memory store *)

Section watermark_facts.
Import Watermark.
Context {Image : Type} `{!ImageLib Image}.

Implicit Types (p : WatermarkPlugin Image) (ms : Mem.MemoryStorage).

Lemma process_Emit_keys p f g :
  process p f = Emit g → SessionID g = SessionID f ∧ Index g = Index f.
Proof.
  unfold process. case_decide; [|done].
  destruct (ImageDecode (Data f)); [|done].
  destruct (watermark p); [|done].
  destruct (PngEncode _); [|done]. by intros [= <-].
Qed.

Lemma stamp_keys p f :
  SessionID (stamp p f) = SessionID f ∧ Index (stamp p f) = Index f.
Proof.
  unfold stamp. destruct (process p f) as [| |g] eqn:E; try done.
  by apply (process_Emit_keys p).
Qed.

Lemma process_no_panic p wm f : watermark p = Some wm → process p f ≠ PanicNil.
Proof.
  intros Hwm. unfold process. rewrite Hwm. case_decide; [|done].
  destruct (ImageDecode (Data f)); [|done]. by destruct (PngEncode _).
Qed.

Lemma elem_of_emitted p l g :
  g ∈ emitted p l ↔ ∃ f, f ∈ l ∧ process p f = Emit g.
Proof.
  unfold emitted. rewrite list_elem_of_omap. split.
  - intros (f & Hf & Hg). exists f. split; [done|].
    destruct (process p f); by simplify_eq.
  - intros (f & Hf & Hg). exists f. split; [done|]. by rewrite Hg.
Qed.

(** With a watermark, the loop over a list of frames puts the emitted
    frames into the memory store and does not panic. *)
Lemma process_frames_mem p wm l ms :
  watermark p = Some wm →
  process_frames p l ms =
    (foldl (λ s f, (Mem.PutFrame f s).1) ms (emitted p l), false).
Proof.
  intros Hwm. revert ms. induction l as [|f l IH]; intros ms; [done|].
  cbn [process_frames]. unfold emitted. cbn [omap list_omap]. fold (emitted p l).
  destruct (process p f) as [| |g] eqn:E.
  - apply IH.
  - by destruct (process_no_panic p wm f Hwm).
  - change (Store.PutFrame g ms) with ((Mem.PutFrame g ms).1, @None StorageError).
    cbn beta iota. by rewrite IH.
Qed.

(** Puts to one session that the store holds change nothing else. *)
Lemma mem_puts_one_session sid P ms :
  Forall (λ f, SessionID f = sid) P → is_Some (Mem.frames ms !! sid) →
  let ms' := foldl (λ s f, (Mem.PutFrame f s).1) ms P in
  Mem.sessions ms' = Mem.sessions ms ∧
  is_Some (Mem.frames ms' !! sid) ∧
  ∀ k, k ≠ sid → Mem.frames ms' !! k = Mem.frames ms !! k.
Proof.
  cbv zeta. intros HP. revert ms. induction HP as [|f P Hf _ IH]; intros ms Hs.
  - done.
  - cbn [foldl].
    assert (is_Some (Mem.frames (Mem.PutFrame f ms).1 !! sid)) as Hs1.
    { rewrite mem_PutFrame_frames, Hf, lookup_insert_eq. eauto. }
    destruct (IH _ Hs1) as (IH1 & IH2 & IH3).
    split; [|split; [done|]].
    + rewrite IH1, mem_PutFrame_sessions, Hf. by destruct Hs as [? ->].
    + intros k Hk. rewrite IH3 by done.
      rewrite mem_PutFrame_frames, Hf. by apply lookup_insert_ne.
Qed.

(** The loop over the listed frames of a session stamps the session. *)
Lemma process_frames_session p wm ms sid M l :
  watermark p = Some wm → mem_keyed ms →
  Mem.frames ms !! sid = Some M → Mem.ListFrames sid ms = Ok l →
  process_frames p l ms =
    ({| Mem.frames := <[sid := stamp p <$> M]> (Mem.frames ms);
        Mem.sessions := Mem.sessions ms |}, false).
Proof.
  intros Hwm Hk HM Hl.
  rewrite (process_frames_mem p wm) by done. f_equal.
  destruct (mem_ListFrames_keyed ms sid l Hk Hl) as (_ & _ & Hel).
  assert (∀ f, f ∈ l ↔ M !! Index f = Some f) as Hel'.
  { intros f. rewrite Hel. unfold Mem.GetFrame. rewrite HM.
    destruct (M !! Index f); split; congruence. }
  assert (∀ f, f ∈ l → SessionID f = sid) as Hsid.
  { intros f Hf%Hel'. by destruct (proj2 (Hk sid M HM) _ _ Hf). }
  assert (Forall (λ f, SessionID f = sid) (emitted p l)) as HP.
  { apply Forall_forall. intros g (f & Hf & Hg)%elem_of_emitted.
    destruct (process_Emit_keys p f g Hg) as [-> _]. auto. }
  destruct (mem_puts_one_session sid (emitted p l) ms HP) as (Hs & [M' HM'] & Ho);
    [eauto|].
  apply mem_eq; cbn [Mem.frames Mem.sessions]; [|done].
  apply map_eq. intros k. destruct (decide (k = sid)) as [->|Hne].
  - rewrite lookup_insert_eq, HM'. f_equal. apply map_eq. intros i.
    pose proof (mem_puts_lookup (emitted p l) ms sid i) as Hlk.
    rewrite HM', HM in Hlk. simpl in Hlk. rewrite Hlk, lookup_fmap.
    destruct (latest_put sid i (emitted p l)) as [g|] eqn:El.
    + destruct (latest_put_Some _ _ _ _ El) as ((f & Hf & Hg)%elem_of_emitted & _ & Hi).
      destruct (process_Emit_keys p f g Hg) as [_ Hgi].
      apply Hel' in Hf. rewrite <- Hi, Hgi, Hf. simpl.
      unfold stamp. by rewrite Hg.
    + destruct (M !! i) as [f|] eqn:EM; [|done]. simpl. f_equal.
      destruct (proj2 (Hk sid M HM) _ _ EM) as [Hfs Hfi].
      unfold stamp. destruct (process p f) as [| |g] eqn:Eg; try done.
      destruct (process_Emit_keys p f g Eg) as [Hgs Hgi].
      destruct (latest_put_None _ _ _ El g).
      * apply elem_of_emitted. exists f. split; [|done].
        apply Hel'. by rewrite Hfi.
      * split; congruence.
  - rewrite lookup_insert_ne by done. by apply Ho.
Qed.

Lemma mem_keyed_stamp_session p ms sid M :
  mem_keyed ms → Mem.frames ms !! sid = Some M →
  mem_keyed {| Mem.frames := <[sid := stamp p <$> M]> (Mem.frames ms);
               Mem.sessions := Mem.sessions ms |}.
Proof.
  intros Hk HM k M'. cbn [Mem.frames]. rewrite lookup_insert.
  case_decide as Hks; [|apply Hk]. subst k. intros [= <-].
  destruct (Hk sid M HM) as [Hne Hkeys]. split.
  - by rewrite fmap_empty_iff.
  - intros i g. rewrite lookup_fmap.
    destruct (M !! i) as [f|] eqn:E; [|done]. intros [= <-].
    destruct (stamp_keys p f) as [-> ->]. by apply Hkeys.
Qed.

(** The loop over a duplicate-free list of sessions of the store stamps
    each of them once. *)
Lemma process_sessions_mem p wm sids ms :
  watermark p = Some wm → NoDup sids → mem_keyed ms →
  (∀ sid, sid ∈ sids → is_Some (Mem.frames ms !! sid)) →
  ∃ ms', process_sessions p sids ms = (ms', false) ∧
         Mem.sessions ms' = Mem.sessions ms ∧
         ∀ k, Mem.frames ms' !! k =
              if decide (k ∈ sids) then fmap (M := gmap Z) (stamp p) <$> Mem.frames ms !! k
              else Mem.frames ms !! k.
Proof.
  intros Hwm Hnd. revert ms. induction Hnd as [|sid sids Hnotin Hnd IH];
    intros ms Hk Hin.
  - exists ms. split; [done|]. split; [done|]. intros k.
    rewrite decide_False; [done|]. by intros ?%elem_of_nil.
  - destruct (Hin sid) as [M HM]; [apply list_elem_of_here|].
    cbn [process_sessions].
    change (Store.ListFrames sid ms) with (Mem.ListFrames sid ms).
    destruct (Mem.ListFrames sid ms) as [l|e] eqn:El.
    2:{ unfold Mem.ListFrames in El. by rewrite HM in El. }
    rewrite (process_frames_session p wm ms sid M l) by done.
    set (ms1 := Mem.mkMem _ _).
    destruct (IH ms1) as (ms' & Hrun & Hs & Hf).
    { by apply mem_keyed_stamp_session. }
    { intros k Hkin. subst ms1. cbn [Mem.frames]. rewrite lookup_insert.
      case_decide; [eauto|]. apply Hin. by apply list_elem_of_further. }
    exists ms'. split; [done|]. split; [by rewrite Hs|].
    intros k. rewrite Hf. subst ms1. cbn [Mem.frames].
    destruct (decide (k = sid)) as [->|Hne].
    + rewrite decide_False by done. rewrite lookup_insert_eq, HM.
      rewrite decide_True by apply list_elem_of_here. done.
    + rewrite lookup_insert_ne by done.
      destruct (decide (k ∈ sids)) as [Hks|Hks].
      * by rewrite decide_True by by apply list_elem_of_further.
      * rewrite decide_False; [done|]. by intros [?|?]%elem_of_cons.
Qed.

(** One pass over a memory store, with a watermark: every frame of
    every session is stamped, and the pass does not panic. *)
Lemma pass_mem p wm ms :
  watermark p = Some wm → Mem.inv ms → mem_keyed ms →
  pass p ms = (stamp_store p ms, false).
Proof.
  intros Hwm Hinv Hk. unfold pass.
  change (Store.ListSessions ms) with (Mem.ListSessions ms).
  unfold Mem.ListSessions.
  destruct (process_sessions_mem p wm
              (GoSort.Strings (elements (Mem.sessions ms))) ms Hwm)
    as (ms' & -> & Hs & Hf).
  { rewrite Strings_Permutation. apply NoDup_elements. }
  { done. }
  { intros sid Hsid%Strings_elements_elem_of. by apply Hinv. }
  f_equal. apply mem_eq; cbn [stamp_store Mem.frames Mem.sessions]; [|done].
  apply map_eq. intros k. rewrite Hf, lookup_fmap.
  case_decide as Hin; [done|].
  rewrite Strings_elements_elem_of, (Hinv k) in Hin.
  destruct (Mem.frames ms !! k); [|done]. destruct Hin. eauto.
Qed.

Lemma mem_inv_stamp_store p ms : Mem.inv ms → Mem.inv (stamp_store p ms).
Proof.
  intros Hinv k. cbn [stamp_store Mem.frames Mem.sessions].
  rewrite lookup_fmap, (Hinv k). by rewrite fmap_is_Some.
Qed.

Lemma mem_keyed_stamp_store p ms : mem_keyed ms → mem_keyed (stamp_store p ms).
Proof.
  intros Hk k M'. cbn [stamp_store Mem.frames]. rewrite lookup_fmap.
  destruct (Mem.frames ms !! k) as [M|] eqn:E; [|done]. intros [= <-].
  destruct (Hk k M E) as [Hne Hkeys]. split.
  - by rewrite fmap_empty_iff.
  - intros i g. rewrite lookup_fmap.
    destruct (M !! i) as [f|] eqn:Ef; [|done]. intros [= <-].
    destruct (stamp_keys p f) as [-> ->]. by apply Hkeys.
Qed.

Lemma sorted_index_lt_unique (l1 l2 : list Frame) :
  StronglySorted index_lt l1 → StronglySorted index_lt l2 →
  (∀ f, f ∈ l1 ↔ f ∈ l2) → l1 = l2.
Proof.
  intros H1 H2 Hel.
  apply (StronglySorted_unique_strong index_lt); [|done..|].
  { intros f g _ _. unfold index_lt. lia. }
  apply NoDup_Permutation; [| |done].
  - eapply NoDup_fmap_1, StronglySorted_index_lt_NoDup, H1.
  - eapply NoDup_fmap_1, StronglySorted_index_lt_NoDup, H2.
Qed.

(** [ListFrames] on the stamped store lists the stamped frames. *)
Lemma ListFrames_stamp_store p ms sid :
  mem_keyed ms →
  Mem.ListFrames sid (stamp_store p ms) =
    match Mem.ListFrames sid ms with
    | Ok l => Ok (stamp p <$> l)
    | Err e => Err e
    end.
Proof.
  intros Hk.
  destruct (Mem.ListFrames sid ms) as [l|e] eqn:El.
  - destruct (mem_ListFrames_keyed ms sid l Hk El) as (_ & Hsorted & Hel).
    destruct (Mem.ListFrames sid (stamp_store p ms)) as [l'|e'] eqn:El'.
    2:{ unfold Mem.ListFrames in *. cbn [stamp_store Mem.frames] in El'.
        rewrite lookup_fmap in El'. by destruct (Mem.frames ms !! sid). }
    destruct (mem_ListFrames_keyed _ sid l' (mem_keyed_stamp_store p ms Hk) El')
      as (_ & Hsorted' & Hel').
    f_equal. apply sorted_index_lt_unique; [done| |].
    + clear -Hsorted. induction Hsorted as [|f l Hl IH Hf]; [constructor|].
      rewrite fmap_cons. constructor; [done|].
      apply Forall_fmap. eapply Forall_impl; [exact Hf|].
      intros g Hg. unfold index_lt in *. simpl.
      destruct (stamp_keys p f) as [_ ->], (stamp_keys p g) as [_ ->]. done.
    + intros g. rewrite Hel', list_elem_of_fmap.
      unfold Mem.GetFrame in *. cbn [stamp_store Mem.frames]. rewrite lookup_fmap.
      unfold Mem.ListFrames in El.
      destruct (Mem.frames ms !! sid) as [M|] eqn:EM; [|done]. simpl.
      rewrite lookup_fmap. split.
      * destruct (M !! Index g) as [f|] eqn:Ef; [|done]. simpl. intros [= Hg].
        exists f. split; [done|]. apply Hel.
        destruct (proj2 (Hk sid M EM) _ _ Ef) as [_ Hi]. by rewrite Hi, Ef.
      * intros (f & -> & Hf%Hel).
        destruct (stamp_keys p f) as [_ ->].
        destruct (M !! Index f) as [f'|]; [|done]. by injection Hf as ->.
  - unfold Mem.ListFrames in *. cbn [stamp_store Mem.frames].
    rewrite lookup_fmap. by destruct (Mem.frames ms !! sid).
Qed.

(** [n] passes and then the cancellation of the context. *)
Lemma watermark_run_mem p wm n err rest ms :
  watermark p = Some wm → Mem.inv ms → mem_keyed ms →
  Run p (replicate n Default ++ CtxDone err :: rest)%list ms =
    (Nat.iter n (stamp_store p) ms, Camera.Returned (Camera.ErrCtx err)).
Proof.
  intros Hwm. revert ms. induction n as [|n IH]; intros ms Hinv Hk; [done|].
  cbn [replicate app Run]. rewrite (pass_mem p wm) by done.
  rewrite IH by (by apply mem_inv_stamp_store || by apply mem_keyed_stamp_store).
  f_equal. clear. induction n as [|n IH]; [done|]. simpl. by rewrite IH.
Qed.

Lemma iter_stamp_store p n ms :
  Mem.inv ms → mem_keyed ms →
  Mem.inv (Nat.iter n (stamp_store p) ms) ∧
  mem_keyed (Nat.iter n (stamp_store p) ms) ∧
  Mem.ListSessions (Nat.iter n (stamp_store p) ms) = Mem.ListSessions ms ∧
  ∀ sid, Mem.ListFrames sid (Nat.iter n (stamp_store p) ms) =
           match Mem.ListFrames sid ms with
           | Ok l => Ok (Nat.iter n (stamp p) <$> l)
           | Err e => Err e
           end.
Proof.
  intros Hinv Hk. induction n as [|n (IH1 & IH2 & IH3 & IH4)].
  - split; [done|]. split; [done|]. split; [done|]. intros sid. simpl.
    destruct (Mem.ListFrames sid ms); [|done]. by rewrite list_fmap_id.
  - rewrite !Nat.iter_succ. split; [by apply mem_inv_stamp_store|].
    split; [by apply mem_keyed_stamp_store|]. split; [by rewrite <- IH3|].
    intros sid. rewrite ListFrames_stamp_store, IH4 by done.
    destruct (Mem.ListFrames sid ms); [|done].
    by rewrite <- list_fmap_compose.
Qed.

(** Without a watermark nothing is put: the loops leave the store as it
    is and tell whether a video frame that decodes was met. *)
Lemma process_frames_nil {S : Type} `{!Store.Storage S} p l (store : S) :
  watermark p = None →
  (process_frames p l store).1 = store ∧
  ((process_frames p l store).2 = true ↔
   ∃ f, f ∈ l ∧ MediaType f = "video" ∧ is_Some (ImageDecode (Data f))).
Proof.
  intros Hwm. induction l as [|f l [IH1 IH2]].
  - split; [done|]. split; [done|]. by intros (f & ?%elem_of_nil & _).
  - cbn [process_frames]. unfold process. rewrite Hwm.
    destruct (decide (MediaType f = "video")) as [Hv|Hv].
    + destruct (ImageDecode (Data f)) as [img|] eqn:Ed.
      * split; [done|]. split; [|done]. intros _. exists f.
        split; [apply list_elem_of_here|]. split; [done|]. rewrite Ed. eauto.
      * split; [done|]. rewrite IH2. split.
        -- intros (g & Hg & ?). exists g. split; [by apply list_elem_of_further|done].
        -- intros (g & [->|Hg]%elem_of_cons & Hgv & Hgd); [|eauto].
           rewrite Ed in Hgd. by destruct Hgd.
    + split; [done|]. rewrite IH2. split.
      * intros (g & Hg & ?). exists g. split; [by apply list_elem_of_further|done].
      * intros (g & [->|Hg]%elem_of_cons & Hgv & Hgd); [done|eauto].
Qed.

Lemma process_sessions_nil {S : Type} `{!Store.Storage S} p sids (store : S) :
  watermark p = None →
  (process_sessions p sids store).1 = store ∧
  ((process_sessions p sids store).2 = true ↔
   ∃ sid l f, sid ∈ sids ∧ Store.ListFrames sid store = Ok l ∧ f ∈ l ∧
              MediaType f = "video" ∧ is_Some (ImageDecode (Data f))).
Proof.
  intros Hwm. induction sids as [|sid sids [IH1 IH2]].
  - split; [done|]. split; [done|]. by intros (? & ? & ? & ?%elem_of_nil & _).
  - cbn [process_sessions].
    assert ((∃ sid' l f, sid' ∈ sid :: sids ∧ Store.ListFrames sid' store = Ok l ∧
               f ∈ l ∧ MediaType f = "video" ∧ is_Some (ImageDecode (Data f))) ↔
            (∃ l f, Store.ListFrames sid store = Ok l ∧ f ∈ l ∧
               MediaType f = "video" ∧ is_Some (ImageDecode (Data f))) ∨
            (∃ sid' l f, sid' ∈ sids ∧ Store.ListFrames sid' store = Ok l ∧
               f ∈ l ∧ MediaType f = "video" ∧ is_Some (ImageDecode (Data f))))
      as Hsplit.
    { split.
      - intros (sid' & l & f & [->|Hin]%elem_of_cons & Hrest); [left|right]; eauto 10.
      - intros [(l & f & Hrest)|(sid' & l & f & Hin & Hrest)].
        + exists sid, l, f. split; [apply list_elem_of_here|done].
        + exists sid', l, f. split; [by apply list_elem_of_further|done]. }
    rewrite Hsplit. clear Hsplit.
    destruct (Store.ListFrames sid store) as [l|e] eqn:El.
    + destruct (process_frames_nil p l store Hwm) as [Hf1 Hf2].
      destruct (process_frames p l store) as [store1 panicked].
      cbn [fst snd] in *. subst store1. destruct panicked.
      * split; [done|]. split; [|done]. intros _. left.
        destruct (proj1 Hf2 eq_refl) as (f & ?). eauto.
      * split; [done|]. rewrite IH2. split; [auto|].
        intros [(l' & f & [= <-] & Hrest)|?]; [|done].
        assert (false = true) by (apply Hf2; eauto). done.
    + split; [done|]. rewrite IH2. split; [auto|].
      intros [(l' & f & ? & _)|?]; done.
Qed.

End watermark_facts.

(** X23.  The watermark plugin with a watermark image, run on a memory
    store reached from the empty one, for [n] passes until its context
    is cancelled: it returns the context's error without a panic, the
    sessions are as before, and every session lists its frames in the
    same order under the same indices, each frame stamped [n] times (the
    plugin keeps no record of the frames it has stamped). *)
Theorem watermark_run_stamps {Image : Type} `{!Watermark.ImageLib Image}
    (p : Watermark.WatermarkPlugin Image) (wm : Image) (ops : list Op) (n : nat)
    (err : Camera.CtxError) (rest : list Watermark.RunEvent) (sid : string) :
  Watermark.watermark p = Some wm →
  let ms := (run mem_step ops Mem.NewMemoryStorage).1 in
  let r := Watermark.Run p
             (replicate n Watermark.Default ++ Watermark.CtxDone err :: rest)%list ms in
  r.2 = Camera.Returned (Camera.ErrCtx err) ∧
  Mem.ListSessions r.1 = Mem.ListSessions ms ∧
  Mem.ListFrames sid r.1 =
    match Mem.ListFrames sid ms with
    | Ok l => Ok (Nat.iter n (Watermark.stamp p) <$> l)
    | Err e => Err e
    end.
Proof.
  intros Hwm. cbv zeta.
  pose proof (mem_inv_run ops _ mem_inv_New) as Hinv.
  pose proof (mem_keyed_run ops _ mem_keyed_New) as Hk.
  rewrite (watermark_run_mem p wm) by done. cbn [fst snd].
  destruct (iter_stamp_store p n _ Hinv Hk) as (_ & _ & Hs & Hl).
  split; [done|]. split; [done|]. apply Hl.
Qed.

Lemma watermark_run_stamps_witness :
  let p := (Watermark.Initialize
              {["watermark_image" := CfgBytes [x2a%byte]]}
              Watermark.NewWatermarkPlugin).1 in
  let ms := (run mem_step [OpPutFrame frame_s1; OpPutFrame frame_s0_a]
               Mem.NewMemoryStorage).1 in
  let r := Watermark.Run p
             [Watermark.Default; Watermark.Default;
              Watermark.CtxDone Camera.Canceled] ms in
  r.2 = Camera.Returned (Camera.ErrCtx Camera.Canceled) ∧
  Mem.ListSessions r.1 = Mem.ListSessions ms ∧
  Mem.ListFrames "s" r.1 =
    match Mem.ListFrames "s" ms with
    | Ok l => Ok (Nat.iter 2 (Watermark.stamp p) <$> l)
    | Err e => Err e
    end.
Proof.
  intros p.
  apply (watermark_run_stamps p [x2a%byte]
           [OpPutFrame frame_s1; OpPutFrame frame_s0_a] 2 Camera.Canceled [] "s").
  reflexivity.
Defined.

(** X24.  The watermark plugin without a watermark image (none was
    configured): a pass puts nothing and leaves the store as it is,
    whatever the backend, and it panics exactly when a listed session
    lists a video frame whose data decodes as an image. *)
Theorem watermark_pass_without_image {Image : Type} `{!Watermark.ImageLib Image}
    {S : Type} `{!Store.Storage S}
    (p : Watermark.WatermarkPlugin Image) (store : S) :
  Watermark.watermark p = None →
  (Watermark.pass p store).1 = store ∧
  ((Watermark.pass p store).2 = true ↔
   ∃ sessions sid l f,
     Store.ListSessions store = Ok sessions ∧ sid ∈ sessions ∧
     Store.ListFrames sid store = Ok l ∧ f ∈ l ∧
     MediaType f = "video" ∧ is_Some (Watermark.ImageDecode (Data f))).
Proof.
  intros Hwm. unfold Watermark.pass.
  destruct (Store.ListSessions store) as [sessions|e].
  - destruct (process_sessions_nil p sessions store Hwm) as [H1 H2].
    split; [done|]. rewrite H2. split.
    + intros (sid & l & f & ?). exists sessions, sid, l, f. tauto.
    + intros (? & sid & l & f & [= <-] & ?). eauto.
  - split; [done|]. split; [done|]. by intros (? & ? & ? & ? & ? & _).
Qed.

Lemma watermark_pass_without_image_witness :
  let ms := (run mem_step [OpPutFrame frame_s1; OpPutFrame frame_a5]
               Mem.NewMemoryStorage).1 in
  (Watermark.pass (Watermark.NewWatermarkPlugin (Image := list byte)) ms).1 = ms ∧
  ((Watermark.pass (Watermark.NewWatermarkPlugin (Image := list byte)) ms).2 = true ↔
   ∃ sessions sid l f,
     Store.ListSessions ms = Ok sessions ∧ sid ∈ sessions ∧
     Store.ListFrames sid ms = Ok l ∧ f ∈ l ∧
     MediaType f = "video" ∧ is_Some (Watermark.ImageDecode (Data f))).
Proof.
  intros ms.
  apply (watermark_pass_without_image
           (Watermark.NewWatermarkPlugin (Image := list byte)) ms).
  reflexivity.
Defined.

(** ** The watermark plugin against the Redis store *)

Section watermark_redis.
Import Watermark.
Context {Image : Type} `{!ImageLib Image}.
Context {payload : Type} `{!FrameCodec payload}.

Implicit Types (p : WatermarkPlugin Image) (rs : Redis.RedisStorage payload).










End watermark_redis.



(** ** The camera's frames under the watermark plugin *)

Section chain.
Import Camera Watermark.
Context {Image : Type} `{!ImageLib Image}.

Implicit Types (wp : WatermarkPlugin Image).




Section any_store.
Context {S : Type} `{!Store.Storage S}.




End any_store.



End chain.


